(** * godns: the zone-file scanner (zscan.go) and the RR data model (dns.go)

    A shallow embedding of the zone lexer [zlexer], the zone parser
    [parseZone] with its per-type rdata readers ([setRR] and friends), the
    entry points [ParseZone], [ReadRR], [NewRR], and of [RRset.Push],
    followed by the properties proved about them.

    Conventions.  Go strings are [string]s of bytes; Go's [int] is a [Z]
    (64 bits, see [intSize]); [uint8], [uint16] and [uint32] conversions are
    written out as a remainder modulo a power of two.  A channel of tokens
    that has been filled and closed by its producer is the list of the
    tokens sent on it; receiving from the closed, drained channel yields the
    zero value of the element type. *)

From Stdlib Require Import String Ascii List ZArith Lia Bool.
Import ListNotations.

Local Open Scope string_scope.
Local Open Scope Z_scope.

(* ================================================================= *)
(** ** Strings and numbers of the Go runtime and standard library *)

Module GoStr.

(** [len(s)] *)
Definition len (s : string) : Z := Z.of_nat (String.length s).

(** [s[i]]; [None] stands for the run-time panic "index out of range". *)
Definition index (s : string) (i : Z) : option ascii :=
  if (i <? 0) || (len s <=? i) then None else String.get (Z.to_nat i) s.

Definition byte (c : ascii) : Z := Z.of_nat (nat_of_ascii c).

(** [strings.ToUpper], on the ASCII letters. *)
Definition upper_ascii (c : ascii) : ascii :=
  let n := byte c in
  if (97 <=? n) && (n <=? 122) then ascii_of_nat (Z.to_nat (n - 32)) else c.

Fixpoint ToUpper (s : string) : string :=
  match s with
  | EmptyString => EmptyString
  | String c r => String (upper_ascii c) (ToUpper r)
  end.

(** The size of [int]: [strconv.IntSize] on a 64-bit platform. *)
Definition intSize : Z := 64.

Definition is_digit (c : ascii) : bool :=
  (48 <=? byte c) && (byte c <=? 57).

Fixpoint digits (s : string) (acc : Z) : option Z :=
  match s with
  | EmptyString => Some acc
  | String c r =>
      if is_digit c then digits r (10 * acc + (byte c - 48)) else None
  end.

(** [strconv.Atoi]: an optional sign, then one or more decimal digits; a
    value outside of [int] is an error ([None]). *)
Definition Atoi (s : string) : option Z :=
  match s with
  | EmptyString => None
  | String c r =>
      let neg := Ascii.eqb c "-" in
      let body := if Ascii.eqb c "+" || neg then r else s in
      match body with
      | EmptyString => None
      | _ =>
          match digits body 0 with
          | None => None
          | Some un =>
              let cutoff := 2 ^ (intSize - 1) in
              if neg then (if un <=? cutoff then Some (- un) else None)
              else (if un <? cutoff then Some un else None)
          end
      end
  end.

Definition uint8 (i : Z) : Z := i mod 2 ^ 8.
Definition uint16 (i : Z) : Z := i mod 2 ^ 16.
Definition uint32 (i : Z) : Z := i mod 2 ^ 32.

End GoStr.

Import GoStr.

(* ================================================================= *)
(** ** dns.go: headers, names *)

Definition DefaultTtl : Z := 3600.

Record RR_Header := mkHeader {
  Name : string;
  Rrtype : Z;    (* uint16 *)
  Class : Z;     (* uint16 *)
  Ttl : Z;       (* uint32 *)
  Rdlength : Z   (* uint16 *)
}.

(** [IsFqdn] checks if a domain name is fully qualified. *)
Definition IsFqdn (s : string) : bool :=
  if len s =? 0 then false
  else match index s (len s - 1) with
       | Some c => Ascii.eqb c "."
       | None => false
       end.

Definition Fqdn (s : string) : string :=
  if IsFqdn s then s else s ++ ".".

(** The loop of [IsDomainName] over the bytes of the name; [None] is an
    early [return 0, false]. *)
Fixpoint IsDomainName_loop (s : string) (last : ascii) (ok : bool)
    (partlen : Z) (labels : Z) : option (Z * bool) :=
  match s with
  | EmptyString => Some (labels, ok)
  | String c r =>
      let n := byte c in
      if ((97 <=? n) && (n <=? 122)) || ((65 <=? n) && (n <=? 90))
         || Ascii.eqb c "_" || Ascii.eqb c "*" then
        IsDomainName_loop r c true (partlen + 1) labels
      else if Ascii.eqb c "\" then
        IsDomainName_loop r c ok partlen labels
      else if (48 <=? n) && (n <=? 57) then
        IsDomainName_loop r c ok (partlen + 1) labels
      else if Ascii.eqb c "-" then
        if Ascii.eqb last "." then None
        else IsDomainName_loop r c ok (partlen + 1) labels
      else if Ascii.eqb c "." then
        if Ascii.eqb last "." || Ascii.eqb last "-" then None
        else if Ascii.eqb last "\" then
          IsDomainName_loop r c ok (partlen + 1) labels
        else if (63 <? partlen) || (partlen =? 0) then None
        else IsDomainName_loop r c ok 0 (uint8 (labels + 1))
      else None
  end.

(** [IsDomainName] returns the number of labels and whether the name is
    valid. *)
Definition IsDomainName (s : string) : Z * bool :=
  if len s =? 0 then (0, false)
  else if 255 <? len s then (0, false)
  else match IsDomainName_loop (Fqdn s) "." false 0 0 with
       | Some r => r
       | None => (0, false)
       end.

(* ================================================================= *)
(** ** zscan.go: tokens *)

(** The token kinds of the [const] block ([_EOF] is [iota], that is 0, the
    zero value of [lex.value]). *)
Inductive tokval :=
  | _EOF | _STRING | _BLANK | _NEWLINE | _RRTYPE | _OWNER | _CLASS
  | _DIRORIGIN | _DIRTTL | _DIRINCLUDE
  | _VALUE | _KEY.

Scheme Equality for tokval.

(** The parser states of the same [const] block. *)
Inductive pstate :=
  | _EXPECT_OWNER_DIR | _EXPECT_OWNER_BL | _EXPECT_ANY
  | _EXPECT_ANY_NOCLASS | _EXPECT_ANY_NOCLASS_BL
  | _EXPECT_ANY_NOTTL | _EXPECT_ANY_NOTTL_BL
  | _EXPECT_RRTYPE | _EXPECT_RRTYPE_BL | _EXPECT_RDATA
  | _EXPECT_DIRTTL_BL | _EXPECT_DIRTTL
  | _EXPECT_DIRORIGIN_BL | _EXPECT_DIRORIGIN
  | _EXPECT_DIRINCLUDE_BL | _EXPECT_DIRINCLUDE.

Record lex := mkLex {
  token : string;   (* Text of the token *)
  err : string;     (* Error text when the lexer detects it *)
  value : tokval;   (* _STRING, _BLANK, etc. *)
  line : Z;
  column : Z
}.

(** The zero value of [lex], also what a receive on a closed channel
    yields. *)
Definition lex0 : lex := mkLex EmptyString EmptyString _EOF 0 0.

Definition set_tok (l : lex) (v : tokval) (t : string) : lex :=
  mkLex t (err l) v (line l) (column l).

Definition set_err (l : lex) (e : string) : lex :=
  mkLex (token l) e (value l) (line l) (column l).

Definition set_pos (l : lex) (ln col : Z) : lex :=
  mkLex (token l) (err l) (value l) ln col.

(** The text of a newline token. *)
Definition nl : string := String "010" EmptyString.

(** The double quote, as a string. *)
Definition dq : string := String "034" EmptyString.

Definition nonempty (s : string) : bool :=
  match s with EmptyString => false | _ => true end.

(* ================================================================= *)
(** ** zscan.go: the lexer *)

(** What the scanner relies on but is declared outside of the files at hand:
    the tables [Str_rr] and [Str_class] (RR type and class mnemonics to
    their codes), [dateToTime] (the RRSIG time stamps), the standard
    library's [net.ParseIP], and the file system behind [os.Open] (a path
    to the content of the file, if it can be opened). *)
Record Env := mkEnv {
  Str_rr : string -> option Z;
  Str_class : string -> option Z;
  ParseIP : string -> option (list Z);
  dateToTime : string -> option Z;
  Open : string -> option string
}.

Section Lexer.

Variable E : Env.

Definition known (tbl : string -> option Z) (s : string) : bool :=
  match tbl (ToUpper s) with Some _ => true | None => false end.

(** The local variables of [zlexer]. *)
Record zl := mkZl {
  zl_l : lex;
  zl_str : string;
  zl_quote : bool;
  zl_escape : bool;
  zl_space : bool;
  zl_commt : bool;
  zl_rrtype : bool;
  zl_owner : bool;
  zl_brace : Z
}.

Definition zl0 : zl :=
  mkZl lex0 EmptyString false false false false false true 0.

(** Assignments to the local variables. *)
Definition set_l (s : zl) (l : lex) : zl :=
  mkZl l (zl_str s) (zl_quote s) (zl_escape s) (zl_space s) (zl_commt s)
    (zl_rrtype s) (zl_owner s) (zl_brace s).

Definition set_str (s : zl) (str : string) : zl :=
  mkZl (zl_l s) str (zl_quote s) (zl_escape s) (zl_space s) (zl_commt s)
    (zl_rrtype s) (zl_owner s) (zl_brace s).

Definition set_quote (s : zl) (b : bool) : zl :=
  mkZl (zl_l s) (zl_str s) b (zl_escape s) (zl_space s) (zl_commt s)
    (zl_rrtype s) (zl_owner s) (zl_brace s).

Definition set_escape (s : zl) (b : bool) : zl :=
  mkZl (zl_l s) (zl_str s) (zl_quote s) b (zl_space s) (zl_commt s)
    (zl_rrtype s) (zl_owner s) (zl_brace s).

Definition set_space (s : zl) (b : bool) : zl :=
  mkZl (zl_l s) (zl_str s) (zl_quote s) (zl_escape s) b (zl_commt s)
    (zl_rrtype s) (zl_owner s) (zl_brace s).

Definition set_commt (s : zl) (b : bool) : zl :=
  mkZl (zl_l s) (zl_str s) (zl_quote s) (zl_escape s) (zl_space s) b
    (zl_rrtype s) (zl_owner s) (zl_brace s).

Definition set_rrtype (s : zl) (b : bool) : zl :=
  mkZl (zl_l s) (zl_str s) (zl_quote s) (zl_escape s) (zl_space s)
    (zl_commt s) b (zl_owner s) (zl_brace s).

Definition set_owner (s : zl) (b : bool) : zl :=
  mkZl (zl_l s) (zl_str s) (zl_quote s) (zl_escape s) (zl_space s)
    (zl_commt s) (zl_rrtype s) b (zl_brace s).

Definition set_brace (s : zl) (n : Z) : zl :=
  mkZl (zl_l s) (zl_str s) (zl_quote s) (zl_escape s) (zl_space s)
    (zl_commt s) (zl_rrtype s) (zl_owner s) n.

(** One turn of the [for tok != scanner.EOF] loop: [Go s out] when the
    loop goes on in state [s] after sending [out] on the channel,
    [Halt out] when [zlexer] returns. *)
Inductive zturn :=
  | Go (s : zl) (out : list lex)
  | Halt (out : list lex).

Definition directive (s : string) : tokval :=
  if String.eqb s "$TTL" then _DIRTTL
  else if String.eqb s "$ORIGIN" then _DIRORIGIN
  else if String.eqb s "$INCLUDE" then _DIRINCLUDE
  else _OWNER.

(** [l.value = v; l.token = t; c <- l]: the state with the new [l], and the
    token sent. *)
Definition send (s : zl) (v : tokval) (t : string) : zl * list lex :=
  let l := set_tok (zl_l s) v t in (set_l s l, [l]).

(** [str += t] *)
Definition add (s : zl) (t : string) : zl := set_str s (zl_str s ++ t).

(** The scanner is run with [Mode = 0] and [Whitespace = 0]: every
    character of the input is a token of its own, and [x] is its text. *)
Definition zlexer_turn (s : zl) (x : ascii) : zturn :=
  if Ascii.eqb x " " || Ascii.eqb x "009" then
    (* case " ", "\t" *)
    let s := set_escape s false in
    if zl_commt s then Go s []
    else
      let '(s, out1) :=
        if negb (nonempty (zl_str s)) then (s, [])
        else if zl_owner s then
          (* the first string of the line: an owner, or a directive *)
          send s (directive (zl_str s)) (zl_str s)
        else
          let '(v, s) :=
            if negb (zl_rrtype s) then
              let '(v, s) :=
                if known (Str_rr E) (zl_str s)
                then (_RRTYPE, set_rrtype s true) else (_STRING, s) in
              if known (Str_class E) (zl_str s) then (_CLASS, s) else (v, s)
            else (_STRING, s) in
          send s v (zl_str s) in
      let s := set_str s EmptyString in
      let '(s, out2) :=
        if negb (zl_space s) && negb (zl_commt s)
        then send s _BLANK " " else (s, []) in
      Go (set_space (set_owner s false) true) (out1 ++ out2)
  else if Ascii.eqb x ";" then
    if zl_escape s then Go (add (set_escape s false) ";") []
    else if zl_quote s then
      (* Inside quoted text we allow ; *)
      Go (add s ";") []
    else Go (set_commt s true) []
  else if Ascii.eqb x "010" then
    (* case "\n" *)
    let s := set_escape s false in
    if zl_commt s then
      (* Reset a comment *)
      let s := set_str (set_rrtype (set_commt s false) false) EmptyString in
      (* If not in a brace this ends the comment AND the RR *)
      if zl_brace s =? 0 then
        let '(s, out) := send (set_owner s true) _NEWLINE nl in Go s out
      else Go s []
    else
      let '(s, out1) :=
        if nonempty (zl_str s) then
          let '(v, s) :=
            if negb (zl_rrtype s) then
              if known (Str_rr E) (zl_str s)
              then (_RRTYPE, set_rrtype s true) else (_STRING, s)
            else (_STRING, s) in
          send s v (zl_str s)
        else (s, []) in
      let '(s, out2) :=
        if 0 <? zl_brace s then
          let l := set_tok (zl_l s) _BLANK " " in
          (set_l s l, if negb (zl_space s) then [l] else [])
        else send s _NEWLINE nl in
      let s :=
        if tokval_beq (value (zl_l s)) _BLANK then set_space s true else s in
      Go (set_owner (set_rrtype (set_commt (set_str s EmptyString) false)
                       false) true)
         (out1 ++ out2)
  else if Ascii.eqb x "\" then
    if zl_commt s then Go s []
    else if zl_escape s then Go (set_escape (add s "\") false) []
    else Go (set_escape (add s "\") true) []
  else if Ascii.eqb x "034" then
    (* the double quote *)
    if zl_commt s then Go s []
    else if zl_escape s then Go (set_escape (add s dq) false) []
    else Go (set_quote s (negb (zl_quote s))) []
  else if Ascii.eqb x "(" then
    if zl_commt s then Go s []
    else if zl_escape s then Go (set_escape (add s "(") false) []
    else Go (set_brace s (zl_brace s + 1)) []
  else if Ascii.eqb x ")" then
    if zl_commt s then Go s []
    else if zl_escape s then Go (set_escape (add s ")") false) []
    else
      let s := set_brace s (zl_brace s - 1) in
      if zl_brace s <? 0
      then Halt [set_err (zl_l s) "Extra closing brace"]
      else Go s []
  else
    (* default *)
    if zl_commt s then Go s []
    else
      Go (set_space (add (set_escape s false) (String x EmptyString)) false) [].

Definition at_pos (s : zl) (ln col : Z) : zl :=
  let '(mkZl l str quote escape space commt rrtype owner brace) := s in
  mkZl (set_pos l ln col) str quote escape space commt rrtype owner brace.

Definition tag (d : Z) (out : list lex) : list (Z * lex) :=
  map (fun l => (d, l)) out.

(** The loop of [zlexer] over the characters of the input, which start at
    line [ln], column [col].  Every token sent is paired with the value of
    [brace] when it was sent. *)
Fixpoint zlexer_loop (s : zl) (ln col : Z) (input : string)
    : list (Z * lex) :=
  match input with
  | EmptyString =>
      (* Send remainder *)
      if 0 <? len (zl_str s)
      then [(zl_brace s, set_tok (zl_l s) _STRING (zl_str s))]
      else []
  | String x rest =>
      let s1 := at_pos s ln col in
      let '(ln', col') :=
        if Ascii.eqb x "010" then (ln + 1, 1) else (ln, col + 1) in
      match zlexer_turn s1 x with
      | Go s2 out => tag (zl_brace s1) out ++ zlexer_loop s2 ln' col' rest
      | Halt out => tag (zl_brace s1) out
      end
  end.

Definition zlexer_trace (input : string) : list (Z * lex) :=
  zlexer_loop zl0 1 1 input.

(** [zlexer]: the tokens sent on the channel [c], in order. *)
Definition zlexer (input : string) : list lex :=
  map snd (zlexer_trace input).

End Lexer.

(* ================================================================= *)
(** ** The resource records *)

(** Modelled from the spec: the RR type and class codes, constants of a
    file that is not at hand (section 3 names the variants and gives
    [IN] = 1); the codes are the ones the RFCs assign. *)
Definition TypeA : Z := 1.
Definition TypeNS : Z := 2.
Definition TypeCNAME : Z := 5.
Definition TypeSOA : Z := 6.
Definition TypeMX : Z := 15.
Definition TypeTXT : Z := 16.
Definition TypeAAAA : Z := 28.
Definition TypeDS : Z := 43.
Definition TypeSSHFP : Z := 44.
Definition TypeRRSIG : Z := 46.
Definition TypeNSEC : Z := 47.
Definition TypeDNSKEY : Z := 48.
Definition TypeNSEC3 : Z := 50.
Definition ClassINET : Z := 1.

(** The record types [RR_A], [RR_NS], ... behind the interface [RR], with
    the fields the rdata readers fill in. *)
Inductive RR :=
  | RR_A (Hdr : RR_Header) (A : list Z)
  | RR_AAAA (Hdr : RR_Header) (AAAA : list Z)
  | RR_NS (Hdr : RR_Header) (Ns : string)
  | RR_MX (Hdr : RR_Header) (Pref : Z) (Mx : string)
  | RR_CNAME (Hdr : RR_Header) (Cname : string)
  | RR_SOA (Hdr : RR_Header) (Ns Mbox : string)
      (Serial Refresh Retry Expire Minttl : Z)
  | RR_SSHFP (Hdr : RR_Header) (Algorithm Type_ : Z) (FingerPrint : string)
  | RR_DNSKEY (Hdr : RR_Header) (Flags Protocol Algorithm : Z)
      (PublicKey : string)
  | RR_RRSIG (Hdr : RR_Header) (TypeCovered Algorithm Labels OrigTtl
      Expiration Inception KeyTag : Z) (SignerName Signature : string)
  | RR_NSEC (Hdr : RR_Header) (NextDomain : string) (TypeBitMap : list Z)
  | RR_NSEC3 (Hdr : RR_Header) (Hash Flags Iterations SaltLength : Z)
      (Salt : string) (HashLength : Z) (NextDomain : string)
      (TypeBitMap : list Z)
  | RR_DS (Hdr : RR_Header) (KeyTag Algorithm DigestType : Z)
      (Digest : string)
  | RR_TXT (Hdr : RR_Header) (Txt : string).

(** The method [Header()] of the interface [RR]. *)
Definition Header (r : RR) : RR_Header :=
  match r with
  | RR_A h _ | RR_AAAA h _ | RR_NS h _ | RR_MX h _ _ | RR_CNAME h _
  | RR_SOA h _ _ _ _ _ _ _ | RR_SSHFP h _ _ _ | RR_DNSKEY h _ _ _ _
  | RR_RRSIG h _ _ _ _ _ _ _ _ _ | RR_NSEC h _ _
  | RR_NSEC3 h _ _ _ _ _ _ _ _ | RR_DS h _ _ _ _ | RR_TXT h _ => h
  end.

(* ----------------------------------------------------------------- *)
(** *** RRset *)

Definition RRset := list RR.

(** [Pop] removes the last pushed RR: the new set and the RR, [None] for
    [nil] when there is nothing to remove. *)
Definition Pop (s : RRset) : RRset * option RR :=
  match List.length s with
  | O => (s, None)
  | S n => (firstn n s, nth_error s n)
  end.

(** [Push] pushes the RR [r] to the RRset: the new set and the result. *)
Definition Push (s : RRset) (r : RR) : RRset * bool :=
  match s with
  | [] => ((s ++ [r])%list, true)
  | r0 :: _ =>
      if negb (String.eqb (Name (Header r0)) (Name (Header r))) then (s, false)
      else if negb (Class (Header r0) =? Class (Header r)) then (s, false)
      else ((s ++ [r])%list, true)
  end.

(* ================================================================= *)
(** ** zscan.go: parse errors and the emitted items *)

Record ParseError := mkParseError {
  pe_file : string;
  pe_err : string;
  pe_lex : lex
}.

(** The items sent on the channel of [ParseZone]: a scanned resource
    record, or the specifics of an error. *)
Record Token := mkToken {
  tok_RR : option RR;
  tok_Error : option ParseError
}.

Definition Token_Error (f msg : string) (l : lex) : Token :=
  mkToken None (Some (mkParseError f msg l)).

Definition Token_RR (r : RR) : Token := mkToken (Some r) None.

(* ================================================================= *)
(** ** Reading tokens from the channel of the lexer

    The rdata readers receive from the channel [c] and return a record or
    a parse error: a state and error monad over the tokens still to come. *)

Inductive res (A : Type) :=
  | Ok (a : A)
  | Err (e : ParseError).

Arguments Ok {A} a.
Arguments Err {A} e.

Definition Rd (A : Type) : Type := list lex -> res A * list lex.

Definition ret {A} (a : A) : Rd A := fun c => (Ok a, c).

Definition fail {A} (f msg : string) (l : lex) : Rd A :=
  fun c => (Err (mkParseError f msg l), c).

Definition bind {A B} (m : Rd A) (k : A -> Rd B) : Rd B :=
  fun c =>
    match m c with
    | (Ok a, c') => k a c'
    | (Err e, c') => (Err e, c')
    end.

(** [<-c] *)
Definition recv : Rd lex :=
  fun c =>
    match c with
    | [] => (Ok lex0, [])
    | l :: c' => (Ok l, c')
    end.

Notation "x <- m ;; k" := (bind m (fun x => k))
  (at level 61, m at next level, right associativity).
Notation "m ;;; k" := (bind m (fun _ => k))
  (at level 61, right associativity).

(** [strconv.Atoi] of the text of a token, or the error [msg]. *)
Definition atoi (f msg : string) (l : lex) : Rd Z :=
  match Atoi (token l) with
  | Some i => ret i
  | None => fail f msg l
  end.

(** A domain name in the rdata: checked with [IsDomainName] and, when it is
    not fully qualified, completed with the origin [o]. *)
Definition qualify (s o : string) : string :=
  if negb (IsFqdn s) then s ++ o else s.

Definition domain (f msg o : string) (l : lex) : Rd string :=
  if negb (snd (IsDomainName (token l))) then fail f msg l
  else ret (qualify (token l) o).

(** The loop that ends the readers of variable length,
[[
    l = <-c
    for l.value != _NEWLINE && l.value != _EOF { switch l.value {...}; l = <-c }
]]
    with the [switch] as [body], which updates the accumulator or fails. *)
Fixpoint until_eol {A} (body : lex -> A -> res A) (acc : A) (c : list lex)
    : res A * list lex :=
  match c with
  | [] => (Ok acc, [])
  | l :: c' =>
      match value l with
      | _NEWLINE | _EOF => (Ok acc, c')
      | _ =>
          match body l acc with
          | Ok acc' => until_eol body acc' c'
          | Err e => (Err e, c')
          end
      end
  end.

(* ================================================================= *)
(** ** dns.go: the rdata of each RR type *)

Section Rdata.

Variable E : Env.

Definition slurpRemainder (f : string) : Rd unit :=
  l <- recv ;;
  match value l with
  | _BLANK =>
      l <- recv ;;
      match value l with
      | _NEWLINE | _EOF => ret tt
      | _ => fail f "garbage after rdata" l
      end
  | _NEWLINE => ret tt
  | _EOF => ret tt
  | _ => fail f "garbage after directly rdata" l
  end.

Definition setA (h : RR_Header) (f : string) : Rd RR :=
  l <- recv ;;
  match ParseIP E (token l) with
  | None => fail f "bad A" l
  | Some ip => ret (RR_A h ip)
  end.

Definition setAAAA (h : RR_Header) (f : string) : Rd RR :=
  l <- recv ;;
  match ParseIP E (token l) with
  | None => fail f "bad AAAA" l
  | Some ip => ret (RR_AAAA h ip)
  end.

Definition setNS (h : RR_Header) (o f : string) : Rd RR :=
  l <- recv ;;
  ns <- domain f "bad NS Ns" o l ;;
  ret (RR_NS h ns).

Definition setMX (h : RR_Header) (o f : string) : Rd RR :=
  l <- recv ;;
  i <- atoi f "bad MX Pref" l ;;
  recv ;;;
  l <- recv ;;
  mx <- domain f "bad MX Mx" o l ;;
  ret (RR_MX h (uint16 i) mx).

Definition setCNAME (h : RR_Header) (o f : string) : Rd RR :=
  l <- recv ;;
  cname <- domain f "bad CNAME" o l ;;
  ret (RR_CNAME h cname).

Definition setSOA (h : RR_Header) (o f : string) : Rd RR :=
  l <- recv ;;
  recv ;;;
  ns <- domain f "bad SOA mname" o l ;;
  l <- recv ;;
  mbox <- domain f "bad SOA rname" o l ;;
  recv ;;;
  (* for i := 0; i < 5; i++ *)
  l <- recv ;; serial <- atoi f "bad SOA zone parameter" l ;; recv ;;;
  l <- recv ;; refresh <- atoi f "bad SOA zone parameter" l ;; recv ;;;
  l <- recv ;; retry <- atoi f "bad SOA zone parameter" l ;; recv ;;;
  l <- recv ;; expire <- atoi f "bad SOA zone parameter" l ;; recv ;;;
  l <- recv ;; minttl <- atoi f "bad SOA zone parameter" l ;;
  ret (RR_SOA h ns mbox (uint32 serial) (uint32 refresh) (uint32 retry)
         (uint32 expire) (uint32 minttl)).

(** The [switch] of the loops that gather base64 or hex chunks, or the
    text of a TXT record ([blanks]: the text of a [_BLANK] is kept). *)
Definition chunk (f msg : string) (blanks : bool) (l : lex) (s : string)
    : res string :=
  match value l with
  | _STRING => Ok (s ++ token l)
  | _BLANK => Ok (if blanks then s ++ token l else s)
  | _ => Err (mkParseError f msg l)
  end.

(** The [switch] of the loops that gather a type bitmap. *)
Definition bitmap (f nonrr garbage : string) (l : lex) (m : list Z)
    : res (list Z) :=
  match value l with
  | _BLANK => Ok m
  | _STRING =>
      match Str_rr E (ToUpper (token l)) with
      | None => Err (mkParseError f nonrr l)
      | Some k => Ok (m ++ [k])%list
      end
  | _ => Err (mkParseError f garbage l)
  end.

Definition date (f msg : string) (l : lex) : Rd Z :=
  match dateToTime E (token l) with
  | Some i => ret i
  | None => fail f msg l
  end.

Definition setRRSIG (h : RR_Header) (o f : string) : Rd RR :=
  l <- recv ;;
  match Str_rr E (ToUpper (token l)) with
  | None => fail f "bad RRSIG" l
  | Some t =>
      recv ;;;
      l <- recv ;; alg <- atoi f "bad RRSIG" l ;; recv ;;;
      l <- recv ;; labels <- atoi f "bad RRSIG" l ;; recv ;;;
      l <- recv ;; origttl <- atoi f "bad RRSIG" l ;; recv ;;;
      l <- recv ;; expiration <- date f "bad RRSIG expiration" l ;; recv ;;;
      l <- recv ;; inception <- date f "bad RRSIG inception" l ;; recv ;;;
      l <- recv ;; keytag <- atoi f "bad RRSIG keytag" l ;; recv ;;;
      l <- recv ;;
      signer <- domain f "bad RRSIG signername" o l ;;
      s <- until_eol (chunk f "bad RRSIG signature" false) EmptyString ;;
      ret (RR_RRSIG h t (uint8 alg) (uint8 labels) (uint32 origttl)
             expiration inception (uint16 keytag) signer s)
  end.

Definition setNSEC (h : RR_Header) (o f : string) : Rd RR :=
  l <- recv ;;
  next <- domain f "bad NSEC nextdomain" o l ;;
  m <- until_eol (bitmap f "bad NSEC non RR in type bitmap"
                    "bad NSEC garbage in type bitmap") [] ;;
  ret (RR_NSEC h next m).

Definition setNSEC3 (h : RR_Header) (o f : string) : Rd RR :=
  l <- recv ;; hash <- atoi f "bad NSEC3" l ;; recv ;;;
  l <- recv ;; flags <- atoi f "bad NSEC3" l ;; recv ;;;
  l <- recv ;; iterations <- atoi f "bad NSEC3" l ;; recv ;;;
  salt <- recv ;;
  recv ;;;
  l <- recv ;;
  next <- domain f "bad NSEC nextdomain" o l ;;
  m <- until_eol (bitmap f "bad NSEC3" "bad NSEC3") [] ;;
  ret (RR_NSEC3 h (uint8 hash) (uint8 flags) (uint16 iterations)
         (uint8 (len (token salt))) (token salt)
         (uint8 (len (token l))) next m).

Definition setSSHFP (h : RR_Header) (f : string) : Rd RR :=
  l <- recv ;; alg <- atoi f "bad SSHFP" l ;; recv ;;;
  l <- recv ;; typ <- atoi f "bad SSHFP" l ;; recv ;;;
  l <- recv ;;
  ret (RR_SSHFP h (uint8 alg) (uint8 typ) (token l)).

Definition setDNSKEY (h : RR_Header) (f : string) : Rd RR :=
  l <- recv ;; flags <- atoi f "bad DNSKEY" l ;; recv ;;;
  l <- recv ;; protocol <- atoi f "bad DNSKEY" l ;; recv ;;;
  l <- recv ;; alg <- atoi f "bad DNSKEY" l ;;
  s <- until_eol (chunk f "bad DNSKEY" false) EmptyString ;;
  ret (RR_DNSKEY h (uint16 flags) (uint8 protocol) (uint8 alg) s).

Definition setDS (h : RR_Header) (f : string) : Rd RR :=
  l <- recv ;; keytag <- atoi f "bad DS" l ;; recv ;;;
  l <- recv ;; alg <- atoi f "bad DS" l ;; recv ;;;
  l <- recv ;; digesttype <- atoi f "bad DS" l ;;
  s <- until_eol (chunk f "bad DS" false) EmptyString ;;
  ret (RR_DS h (uint16 keytag) (uint8 alg) (uint8 digesttype) s).

Definition setTXT (h : RR_Header) (f : string) : Rd RR :=
  s <- until_eol (chunk f "bad TXT" true) EmptyString ;;
  ret (RR_TXT h s).

(** The label [Slurp] of [setRR]: after a reader of fixed length, the
    rest of the line is checked by [slurpRemainder]. *)
Definition Slurp (f : string) (m : Rd RR) : Rd RR :=
  r <- m ;;
  slurpRemainder f ;;;
  ret r.

Definition setRR (h : RR_Header) (o f : string) : Rd RR :=
  let t := Rrtype h in
  if t =? TypeA then Slurp f (setA h f)
  else if t =? TypeAAAA then Slurp f (setAAAA h f)
  else if t =? TypeNS then Slurp f (setNS h o f)
  else if t =? TypeMX then Slurp f (setMX h o f)
  else if t =? TypeCNAME then Slurp f (setCNAME h o f)
  else if t =? TypeSOA then Slurp f (setSOA h o f)
  else if t =? TypeSSHFP then Slurp f (setSSHFP h f)
  else if t =? TypeDNSKEY then setDNSKEY h f
  else if t =? TypeRRSIG then setRRSIG h o f
  else if t =? TypeNSEC then setNSEC h o f
  else if t =? TypeNSEC3 then setNSEC3 h o f
  else if t =? TypeDS then setDS h f
  else if t =? TypeTXT then setTXT h f
  else fail f "Unknown RR type" lex0.

End Rdata.

(* ================================================================= *)
(** ** zscan.go: the parser *)

Definition with_defaults (h : RR_Header) (defttl : Z) : RR_Header :=
  mkHeader (Name h) (Rrtype h) ClassINET defttl (Rdlength h).

Definition with_Name (h : RR_Header) (n : string) : RR_Header :=
  mkHeader n (Rrtype h) (Class h) (Ttl h) (Rdlength h).

Definition with_Rrtype (h : RR_Header) (t : Z) : RR_Header :=
  mkHeader (Name h) t (Class h) (Ttl h) (Rdlength h).

Definition with_Class (h : RR_Header) (c : Z) : RR_Header :=
  mkHeader (Name h) (Rrtype h) c (Ttl h) (Rdlength h).

Definition with_Ttl (h : RR_Header) (t : Z) : RR_Header :=
  mkHeader (Name h) (Rrtype h) (Class h) t (Rdlength h).

(** The zero value of [RR_Header]. *)
Definition header0 : RR_Header := mkHeader EmptyString 0 0 0 0.

(** [stringToTtl]: the TTL, or the error item it sends on [t]. *)
Definition stringToTtl (l : lex) (f : string) : Token + Z :=
  match Atoi (token l) with
  | None => inl (Token_Error f "Not a TTL" l)
  | Some ttl => inr (uint32 ttl)
  end.

(** One turn of the loop [for l := range c] of [parseZone]: either the loop
    goes on with new values of [st], [h], [defttl], [origin], what is left
    of the channel [c], and the items [out] sent on [t] meanwhile, or
    [parseZone] returns after sending [out]. *)
Inductive pturn :=
  | PGo (st : pstate) (h : RR_Header) (defttl : Z) (origin : string)
        (c : list lex) (out : list Token)
  | PReturn (out : list Token).

(** What a call comes to: a run-time panic, or a return. *)
Inductive outcome (A : Type) :=
  | Panics
  | Returns (a : A).

Arguments Panics {A}.
Arguments Returns {A} a.

Section Parser.

Variable E : Env.

(** [h.Rrtype, _ = Str_rr[strings.ToUpper(l.token)]] *)
Definition rrtype_of (l : lex) : Z :=
  match Str_rr E (ToUpper (token l)) with Some t => t | None => 0 end.

(** [sub r1 name] stands for the items the nested call
    [parseZone(r1, name, t, include+1)] sends on [t]. *)
Definition parseZone_turn (sub : string -> string -> list Token)
    (f : string) (include : Z)
    (st : pstate) (h : RR_Header) (defttl : Z) (origin : string)
    (l : lex) (c : list lex) : pturn :=
  (* Lexer spotted an error already *)
  if nonempty (err l) then PReturn [Token_Error f (err l) l]
  else
  match st with
  | _EXPECT_OWNER_DIR =>
      let h := with_defaults h defttl in
      match value l with
      | _NEWLINE => PGo _EXPECT_OWNER_DIR h defttl origin c []
      | _OWNER =>
          let h := with_Name h (token l) in
          if negb (snd (IsDomainName (token l))) then
            PReturn [Token_Error f "bad owner name" l]
          else
            let h := if negb (IsFqdn (Name h))
                     then with_Name h (Name h ++ origin) else h in
            PGo _EXPECT_OWNER_BL h defttl origin c []
      | _DIRTTL => PGo _EXPECT_DIRTTL_BL h defttl origin c []
      | _DIRORIGIN => PGo _EXPECT_DIRORIGIN_BL h defttl origin c []
      | _DIRINCLUDE => PGo _EXPECT_DIRINCLUDE_BL h defttl origin c []
      | _ => PReturn [Token_Error f "Error at the start" l]
      end
  | _EXPECT_DIRINCLUDE_BL =>
      if negb (tokval_beq (value l) _BLANK) then
        PReturn [Token_Error f "No blank after $INCLUDE-directive" l]
      else PGo _EXPECT_DIRINCLUDE h defttl origin c []
  | _EXPECT_DIRINCLUDE =>
      if negb (tokval_beq (value l) _STRING) then
        PReturn [Token_Error f "Expecting $INCLUDE value, not this..." l]
      else
        match Open E (token l) with
        | None =>
            PReturn [Token_Error f ("Failed to open `" ++ token l ++ "'") l]
        | Some r1 =>
            if 7 <? include + 1 then
              PReturn [Token_Error f "Too deeply nested $INCLUDE" l]
            else
              PGo _EXPECT_OWNER_DIR h defttl origin c (sub r1 (token l))
        end
  | _EXPECT_DIRTTL_BL =>
      if negb (tokval_beq (value l) _BLANK) then
        PReturn [Token_Error f "No blank after $TTL-directive" l]
      else PGo _EXPECT_DIRTTL h defttl origin c []
  | _EXPECT_DIRTTL =>
      if negb (tokval_beq (value l) _STRING) then
        PReturn [Token_Error f "Expecting $TTL value, not this..." l]
      else
        match stringToTtl l f with
        | inl e => PReturn [e]
        | inr ttl => PGo _EXPECT_OWNER_DIR h ttl origin c []
        end
  | _EXPECT_DIRORIGIN_BL =>
      if negb (tokval_beq (value l) _BLANK) then
        PReturn [Token_Error f "No blank after $ORIGIN-directive" l]
      else PGo _EXPECT_DIRORIGIN h defttl origin c []
  | _EXPECT_DIRORIGIN =>
      if negb (tokval_beq (value l) _STRING) then
        PReturn [Token_Error f "Expecting $ORIGIN value, not this..." l]
      else
        let origin :=
          if negb (IsFqdn (token l)) then token l ++ origin else token l in
        PGo _EXPECT_DIRORIGIN h defttl origin c []
  | _EXPECT_OWNER_BL =>
      if negb (tokval_beq (value l) _BLANK) then
        PReturn [Token_Error f "No blank after owner" l]
      else PGo _EXPECT_ANY h defttl origin c []
  | _EXPECT_ANY =>
      match value l with
      | _RRTYPE =>
          PGo _EXPECT_RDATA (with_Rrtype h (rrtype_of l)) defttl origin c []
      | _CLASS =>
          match Str_class E (ToUpper (token l)) with
          | None => PReturn [Token_Error f "Unknown class" l]
          | Some cl =>
              PGo _EXPECT_ANY_NOCLASS_BL (with_Class h cl) defttl origin c []
          end
      | _STRING =>
          match stringToTtl l f with
          | inl e => PReturn [e]
          | inr ttl =>
              PGo _EXPECT_ANY_NOTTL_BL (with_Ttl h ttl) defttl origin c []
          end
      | _ =>
          PReturn
            [Token_Error f "Expecting RR type, TTL or class, not this..." l]
      end
  | _EXPECT_ANY_NOCLASS_BL =>
      if negb (tokval_beq (value l) _BLANK) then
        PReturn [Token_Error f "No blank before NOCLASS" l]
      else PGo _EXPECT_ANY_NOCLASS h defttl origin c []
  | _EXPECT_ANY_NOTTL_BL =>
      if negb (tokval_beq (value l) _BLANK) then
        PReturn [Token_Error f "No blank before NOTTL" l]
      else PGo _EXPECT_ANY_NOTTL h defttl origin c []
  | _EXPECT_ANY_NOTTL =>
      match value l with
      | _CLASS =>
          match Str_class E (ToUpper (token l)) with
          | None => PReturn [Token_Error f "Unknown class" l]
          | Some cl =>
              PGo _EXPECT_RRTYPE_BL (with_Class h cl) defttl origin c []
          end
      | _RRTYPE =>
          PGo _EXPECT_RDATA (with_Rrtype h (rrtype_of l)) defttl origin c []
      | _ => PGo _EXPECT_ANY_NOTTL h defttl origin c []
      end
  | _EXPECT_ANY_NOCLASS =>
      match value l with
      | _STRING =>
          match stringToTtl l f with
          | inl e => PReturn [e]
          | inr ttl =>
              PGo _EXPECT_RRTYPE_BL (with_Ttl h ttl) defttl origin c []
          end
      | _RRTYPE =>
          PGo _EXPECT_RDATA (with_Rrtype h (rrtype_of l)) defttl origin c []
      | _ =>
          PReturn [Token_Error f "Expecting RR type or TTL, not this..." l]
      end
  | _EXPECT_RRTYPE_BL =>
      if negb (tokval_beq (value l) _BLANK) then
        PReturn [Token_Error f "No blank after" l]
      else PGo _EXPECT_RRTYPE h defttl origin c []
  | _EXPECT_RRTYPE =>
      if negb (tokval_beq (value l) _RRTYPE) then
        PReturn [Token_Error f "Unknown RR type" l]
      else
        PGo _EXPECT_RDATA (with_Rrtype h (rrtype_of l)) defttl origin c []
  | _EXPECT_RDATA =>
      match setRR E h origin f c with
      | (Err e, _) =>
          (* an unknown RR type comes without a token: ours is put in *)
          let e := if negb (nonempty (token (pe_lex e)))
                      && tokval_beq (value (pe_lex e)) _EOF
                   then mkParseError (pe_file e) (pe_err e) l else e in
          PReturn [mkToken None (Some e)]
      | (Ok r, c') =>
          PGo _EXPECT_OWNER_DIR h defttl origin c' [Token_RR r]
      end
  end.

(** The loop [for l := range c]; it takes a token at every turn, so that
    [fuel] at least the length of [c] is enough (see
    [parseZone_loop_fuel]). *)
Fixpoint parseZone_loop (sub : string -> string -> list Token)
    (f : string) (include : Z) (fuel : nat)
    (st : pstate) (h : RR_Header) (defttl : Z) (origin : string)
    (c : list lex) : list Token :=
  match fuel with
  | O => []
  | S fuel' =>
      match c with
      | [] => []
      | l :: c' =>
          match parseZone_turn sub f include st h defttl origin l c' with
          | PReturn out => out
          | PGo st' h' defttl' origin' c'' out =>
              (out ++ parseZone_loop sub f include fuel'
                        st' h' defttl' origin' c'')%list
          end
      end
  end.

(** [parseZone(r, f, t, include)]: the items it sends on [t].  Files are
    nested at most 7 deep, [depth] bounds the nesting that is followed:
    with [depth + include >= 7] it is never used up (see
    [parseZone_depth]). *)
Fixpoint parseZone (depth : nat) (r f : string) (include : Z)
    : list Token :=
  let c := zlexer E r in
  parseZone_loop
    (fun r1 f1 =>
       match depth with
       | O => []
       | S depth' => parseZone depth' r1 f1 (include + 1)
       end)
    f include (List.length c)
    _EXPECT_OWNER_DIR header0 DefaultTtl "." c.

(** [ParseZone] reads a RFC 1035 zone from [r]: the items received from
    the channel it returns, until the channel is closed. *)
Definition ParseZone (r file : string) : list Token :=
  parseZone 7 r file 0.

(** [ReadRR]: only the first RR is returned. *)
Definition ReadRR (q filename : string) : option RR * option ParseError :=
  let r := match ParseZone q filename with
           | [] => mkToken None None
           | r :: _ => r
           end in
  match tok_Error r with
  | Some e => (None, Some e)
  | None => (tok_RR r, None)
  end.

(** [NewRR] reads the RR contained in the string [s]. *)
Definition NewRR (s : string) : outcome (option RR * option ParseError) :=
  match index s (len s - 1) with
  | None => Panics
  | Some x =>
      if negb (Ascii.eqb x "010") then
        Returns (ReadRR (s ++ nl) EmptyString)
      else Returns (ReadRR s EmptyString)
  end.

End Parser.

(* ================================================================= *)
(** ** An environment for the examples *)

Fixpoint assoc (tbl : list (string * Z)) (s : string) : option Z :=
  match tbl with
  | [] => None
  | (k, v) :: tbl' => if String.eqb k s then Some v else assoc tbl' s
  end.

(** Modelled from the spec: the table [Str_rr] of a file that is not at
    hand, with the RR types that section 3 names. *)
Definition std_Str_rr : string -> option Z :=
  assoc [("A", TypeA); ("AAAA", TypeAAAA); ("NS", TypeNS);
         ("CNAME", TypeCNAME); ("MX", TypeMX); ("SOA", TypeSOA);
         ("TXT", TypeTXT); ("SSHFP", TypeSSHFP); ("DS", TypeDS);
         ("DNSKEY", TypeDNSKEY); ("RRSIG", TypeRRSIG); ("NSEC", TypeNSEC);
         ("NSEC3", TypeNSEC3); ("OPT", 41)].

(** Modelled from the spec: the table [Str_class] of a file that is not at
    hand, with the class that section 3 names. *)
Definition std_Str_class : string -> option Z :=
  assoc [("IN", ClassINET)].

(** The environment of the examples: the tables above, and whatever
    [net.ParseIP], [dateToTime] and the file system are. *)
Definition std_env (ip : string -> option (list Z))
    (dt : string -> option Z) (fs : string -> option string) : Env :=
  mkEnv std_Str_rr std_Str_class ip dt fs.

(** A file system with the one file [path], of content [r]. *)
Definition one_file (path r : string) : string -> option string :=
  fun p => if String.eqb p path then Some r else None.

(** The environment of the closed examples, which read neither an address
    nor a time stamp nor, unless said otherwise, a file: none is
    accepted. *)
Definition no_file : string -> option string := fun _ => None.

Definition ex_env (fs : string -> option string) : Env :=
  std_env (fun _ => None) (fun _ => None) fs.


(* ================================================================= *)
(** ** Notions used in the statements *)








(** The character [x] does not occur in [s]. *)
Fixpoint lacks (x : ascii) (s : string) : bool :=
  match s with
  | EmptyString => true
  | String y r => negb (Ascii.eqb y x) && lacks x r
  end.



(** The lexer, in state [s], reads [x] and starts a comment inside braces
    while it holds a word that it has yet to send: [x] is a semicolon out
    of an escape, of a quoted text and of a comment, [brace] is not 0 and
    [str] is not empty.  The end of the line then resets [str]: the word
    is never sent. *)
Definition drops_word (s : zl) (x : ascii) : bool :=
  Ascii.eqb x ";" && negb (zl_escape s) && negb (zl_quote s)
  && negb (zl_commt s) && negb (zl_brace s =? 0) && nonempty (zl_str s).

(** Whether that happens on the way of [zlexer_loop] through [input]. *)
Fixpoint word_dropped (E : Env) (s : zl) (ln col : Z) (input : string)
    : bool :=
  match input with
  | EmptyString => false
  | String x rest =>
      let s1 := at_pos s ln col in
      let '(ln', col') :=
        if Ascii.eqb x "010" then (ln + 1, 1) else (ln, col + 1) in
      drops_word s1 x
      || match zlexer_turn E s1 x with
         | Go s2 _ => word_dropped E s2 ln' col' rest
         | Halt _ => false
         end
  end.


(** On the input, a comment inside braces drops a word. *)
Definition comment_drops_word (E : Env) (input : string) : bool :=
  word_dropped E zl0 1 1 input.

(** The last character of [String c s]. *)
Fixpoint last_char (c : ascii) (s : string) : ascii :=
  match s with
  | EmptyString => c
  | String c' s' => last_char c' s'
  end.

(** A TTL within [uint32]. *)
Definition ttl32 (t : Z) : Prop := 0 <= t < 2 ^ 32.

(** The item is not an RR, or an RR with a fully qualified owner name. *)
Definition fqdn_item (t : Token) : Prop :=
  match tok_RR t with
  | Some rr => IsFqdn (Name (Header rr)) = true
  | None => True
  end.

(** The item is not an RR, or an RR with a TTL of at most [bound]. *)
Definition ttl_item (bound : Z) (t : Token) : Prop :=
  match tok_RR t with
  | Some rr => 0 <= Ttl (Header rr) <= bound
  | None => True
  end.

(** The item is not an RR, or an RR with a fully qualified owner name and
    a TTL within [uint32]. *)
Definition item_ok (t : Token) : Prop :=
  fqdn_item t /\ ttl_item (2 ^ 32 - 1) t.

(** The parser states in which the owner name of the record at hand has
    been read. *)
Definition owner_read (st : pstate) : bool :=
  match st with
  | _EXPECT_OWNER_BL | _EXPECT_ANY
  | _EXPECT_ANY_NOCLASS | _EXPECT_ANY_NOCLASS_BL
  | _EXPECT_ANY_NOTTL | _EXPECT_ANY_NOTTL_BL
  | _EXPECT_RRTYPE | _EXPECT_RRTYPE_BL | _EXPECT_RDATA => true
  | _ => false
  end.

(** The invariant of the loop of [parseZone]. *)
Definition parse_inv (st : pstate) (h : RR_Header) (defttl : Z)
    (origin : string) : Prop :=
  IsFqdn origin = true /\ ttl32 defttl /\ ttl32 (Ttl h) /\
  (owner_read st = true -> IsFqdn (Name h) = true).

(** What a reader guarantees: it takes tokens from the channel and never
    adds any, and a record it returns satisfies [P]. *)
Definition rd_spec {A} (P : A -> Prop) (m : Rd A) : Prop :=
  forall c r c', m c = (r, c') ->
    (List.length c' <= List.length c)%nat /\
    (forall a, r = Ok a -> P a).

(** The record [r] has the header [h]. *)
Definition keeps_header (h : RR_Header) (r : RR) : Prop := Header r = h.

(** How many errors a stream of items holds. *)
Definition is_error (t : Token) : bool :=
  match tok_Error t with Some _ => true | None => false end.

Definition count_errors (ts : list Token) : nat :=
  List.length (filter is_error ts).

(** The first error ends the stream: no item follows an error. *)
Fixpoint error_is_last (ts : list Token) : bool :=
  match ts with
  | [] => true
  | t :: ts' =>
      (negb (is_error t) || match ts' with [] => true | _ => false end)
      && error_is_last ts'
  end.

(** [Push] takes [r] into [s]: [s] is empty, or [r] has the name and the
    class of the first RR of [s]. *)
Definition fits (s : RRset) (r : RR) : Prop :=
  s = [] \/
  exists r0 s', s = r0 :: s' /\
    Name (Header r0) = Name (Header r) /\
    Class (Header r0) = Class (Header r).

(* ================================================================= *)
(** ** dns.go: more of the RRset, and of the names *)

(** [NewRRset] *)
Definition NewRRset : RRset := [].

(** The loop of [Ok] over [s[1:]]. *)
Fixpoint Ok_loop (ttl : Z) (name : string) (class : Z) (rest : list RR)
    : bool :=
  match rest with
  | [] => true
  | rr :: rest' =>
      if negb (Ttl (Header rr) =? ttl) then false
      else if negb (String.eqb (Name (Header rr)) name) then false
      else if negb (Class (Header rr) =? class) then false
      else Ok_loop ttl name class rest'
  end.

(** [RRset.Ok] checks if the RRset is RFC 2181 compliant; it indexes
    [s[0]] first, which panics on an empty set. *)
Definition RRset_Ok (s : RRset) : outcome bool :=
  match s with
  | [] => Panics
  | r0 :: rest =>
      Returns (Ok_loop (Ttl (Header r0)) (Name (Header r0))
                 (Class (Header r0)) rest)
  end.

(** The sets that [Push] builds from the empty set, whatever it is given
    and whether it takes it or not. *)
Inductive pushed : RRset -> Prop :=
  | pushed_new : pushed NewRRset
  | pushed_Push (s : RRset) (r : RR) : pushed s -> pushed (fst (Push s r)).

(** The RR [r] has the name and the class of [r0]. *)
Definition same_name_class (r0 r : RR) : Prop :=
  Name (Header r) = Name (Header r0) /\ Class (Header r) = Class (Header r0).

Definition same_ttl (r0 r : RR) : Prop :=
  Ttl (Header r) = Ttl (Header r0).

(** A character that makes a name a name: a letter, an underscore or a
    star. *)
Definition letter (c : ascii) : bool :=
  ((97 <=? byte c) && (byte c <=? 122))
  || ((65 <=? byte c) && (byte c <=? 90))
  || Ascii.eqb c "_" || Ascii.eqb c "*".

Fixpoint has_letter (s : string) : bool :=
  match s with
  | EmptyString => false
  | String c r => letter c || has_letter r
  end.

(** The loop of [zoneMatch], which compares the names from their ends;
    [None] when the [fuel] runs out, which as many turns as [pattern] has
    bytes never do (see [zoneMatch_returns]). *)
Fixpoint zoneMatch_loop (fuel : nat) (pattern zone : string) (i : Z)
    : option (outcome bool) :=
  match fuel with
  | O => None
  | S fuel' =>
      match index pattern (len pattern - 1 - i),
            index zone (len zone - 1 - i) with
      | Some a, Some b =>
          let ok := Ascii.eqb a b in
          let i := i + 1 in
          if negb ok then Some (Returns ok)
          else if (len pattern - 1 - i <? 0) || (len zone - 1 - i <? 0)
          then Some (Returns ok)
          else zoneMatch_loop fuel' pattern zone i
      | _, _ => Some Panics
      end
  end.

Definition zoneMatch (pattern zone : string) : option (outcome bool) :=
  if len pattern =? 0 then Some (Returns false)
  else
    let zone := if len zone =? 0 then "." else zone in
    let pattern := Fqdn pattern in
    let zone := Fqdn zone in
    zoneMatch_loop (String.length pattern) pattern zone 0.

(** The lists [u] and [v] agree as far as the shorter goes. *)
Fixpoint agree (u v : list ascii) : bool :=
  match u, v with
  | x :: u', y :: v' => Ascii.eqb x y && agree u' v'
  | _, _ => true
  end.

(** The name [a] ends with the name [b]. *)
Definition ends_with (a b : string) : Prop := exists w, a = w ++ b.

(* ================================================================= *)
(** ** Notions used in the further statements *)

(** The kinds of token of a zone file. *)
Definition zone_value (v : tokval) : bool :=
  match v with
  | _STRING | _BLANK | _NEWLINE | _RRTYPE | _OWNER | _CLASS
  | _DIRORIGIN | _DIRTTL | _DIRINCLUDE => true
  | _ => false
  end.

(** A regular token: no error text, a text that is not empty and a kind of
    the zone file. *)
Definition regular (l : lex) : bool :=
  negb (nonempty (err l)) && nonempty (token l) && zone_value (value l).

(** No token follows a token that carries an error text. *)
Fixpoint lex_error_is_last (ts : list lex) : bool :=
  match ts with
  | [] => true
  | t :: ts' =>
      (negb (nonempty (err t)) || match ts' with [] => true | _ => false end)
      && lex_error_is_last ts'
  end.

(** The lines of the tokens never decrease, from [lo] on. *)
Fixpoint lines_from (lo : Z) (ts : list lex) : bool :=
  match ts with
  | [] => true
  | t :: ts' => (lo <=? line t) && lines_from (line t) ts'
  end.

(** The type code of the variant of a record. *)
Definition type_code (r : RR) : Z :=
  match r with
  | RR_A _ _ => TypeA
  | RR_AAAA _ _ => TypeAAAA
  | RR_NS _ _ => TypeNS
  | RR_MX _ _ _ => TypeMX
  | RR_CNAME _ _ => TypeCNAME
  | RR_SOA _ _ _ _ _ _ _ _ => TypeSOA
  | RR_SSHFP _ _ _ _ => TypeSSHFP
  | RR_DNSKEY _ _ _ _ _ => TypeDNSKEY
  | RR_RRSIG _ _ _ _ _ _ _ _ _ _ => TypeRRSIG
  | RR_NSEC _ _ _ => TypeNSEC
  | RR_NSEC3 _ _ _ _ _ _ _ _ _ => TypeNSEC3
  | RR_DS _ _ _ _ _ => TypeDS
  | RR_TXT _ _ => TypeTXT
  end.

(** The class [c] is IN, or a class of the table [Str_class]. *)
Definition class_known (E : Env) (c : Z) : Prop :=
  c = ClassINET \/ exists k, Str_class E k = Some c.

(** An item is an RR or an error, never both nor neither; the RR is of
    the variant of its type code, of a known class, and its [Rdlength] is
    left at 0. *)
Definition item_shape (E : Env) (t : Token) : Prop :=
  match tok_RR t, tok_Error t with
  | Some rr, None =>
      Rrtype (Header rr) = type_code rr /\
      Rdlength (Header rr) = 0 /\
      class_known E (Class (Header rr))
  | None, Some _ => True
  | _, _ => False
  end.

(** A second invariant of the loop of [parseZone]. *)
Definition header_inv (E : Env) (st : pstate) (h : RR_Header) : Prop :=
  Rdlength h = 0 /\ (owner_read st = true -> class_known E (Class h)).

(** The item is not an RR, or an RR of the variant of its type code. *)
Definition variant_item (t : Token) : Prop :=
  match tok_RR t with
  | Some rr => Rrtype (Header rr) = type_code rr
  | None => True
  end.

(** The item is not an RR, or an RR of a known class whose [Rdlength] is
    0. *)
Definition header_item (E : Env) (t : Token) : Prop :=
  match tok_RR t with
  | Some rr =>
      Rdlength (Header rr) = 0 /\ class_known E (Class (Header rr))
  | None => True
  end.

(** The item is an RR or an error, and not both. *)
Definition one_of (t : Token) : Prop :=
  match tok_RR t, tok_Error t with
  | Some _, None | None, Some _ => True
  | _, _ => False
  end.

(** What a reader does with tokens that satisfy [C], when [U] holds of
    them and of the zero token: it leaves tokens that satisfy [C] in the
    channel, the token of its error satisfies [U], and its result [Q]. *)
Definition rd_in (C U : lex -> Prop) {A} (Q : A -> Prop) (m : Rd A) : Prop :=
  forall c r c', Forall C c -> m c = (r, c') ->
    Forall C c' /\
    (forall e, r = Err e -> U (pe_lex e)) /\
    (forall a, r = Ok a -> Q a).

(** The token is at a place of a file: line and column count from 1. *)
Definition located (l : lex) : Prop := 1 <= line l /\ 1 <= column l.

(** The token that stands for no token in an error of [setRR]. *)
Definition no_token (l : lex) : Prop :=
  token l = EmptyString /\ value l = _EOF.

(** The item is not an error, or an error at a place of a file. *)
Definition located_item (t : Token) : Prop :=
  match tok_Error t with
  | Some e => located (pe_lex e)
  | None => True
  end.

(** The environment [E] without a file system: no file can be opened. *)
Definition without_files (E : Env) : Env :=
  mkEnv (Str_rr E) (Str_class E) (ParseIP E) (dateToTime E) (fun _ => None).

(** The token is not the directive $INCLUDE. *)
Definition not_include (l : lex) : Prop := value l <> _DIRINCLUDE.

(** The states of the parser in which a directive $INCLUDE is being
    read. *)
Definition including (st : pstate) : bool :=
  match st with
  | _EXPECT_DIRINCLUDE_BL | _EXPECT_DIRINCLUDE => true
  | _ => false
  end.

(* ================================================================= *)
(** ** dns.go: the helpers that set up and test a message *)

(** The opcodes, rcodes and type codes that the helpers use; they are
    constants of a file that is not at hand. *)
Record MsgCodes := mkMsgCodes {
  OpcodeQuery : Z;
  OpcodeNotify : Z;
  OpcodeUpdate : Z;
  RcodeSuccess : Z;
  RcodeFormatError : Z;
  TypeIXFR : Z;
  TypeAXFR : Z;
  TypeTSIG : Z;
  TypeOPT : Z
}.

Record Question := mkQuestion {
  Qname : string;
  Qtype : Z;
  Qclass : Z
}.

(** The header of a message, with the fields that the helpers use. *)
Record MsgHdr := mkMsgHdr {
  Id : Z;
  Response : bool;
  Opcode : Z;
  Authoritative : bool;
  RecursionDesired : bool;
  Rcode : Z
}.

Record Msg := mkMsg {
  Msg_Hdr : MsgHdr;
  Msg_Question : list Question;
  Msg_Answer : list RR;
  Msg_Ns : list RR;
  Msg_Extra : list RR
}.

(** The zero value of [Question]. *)
Definition Question0 : Question := mkQuestion EmptyString 0 0.

(** The helpers have a pointer receiver, and [SetReply] and [SetRcode]
    take a second pointer, which may be the receiver itself: for these two
    the messages are kept in a store, and a [*Msg] is [nil] ([None]) or
    the address of a message of the store. *)
Definition store := nat -> Msg.

Definition put (st : store) (p : nat) (m : Msg) : store :=
  fun q => if Nat.eqb q p then m else st q.

Definition hdr_Id (h : MsgHdr) (v : Z) : MsgHdr :=
  mkMsgHdr v (Response h) (Opcode h) (Authoritative h) (RecursionDesired h)
    (Rcode h).

Definition hdr_Response (h : MsgHdr) (v : bool) : MsgHdr :=
  mkMsgHdr (Id h) v (Opcode h) (Authoritative h) (RecursionDesired h)
    (Rcode h).

Definition hdr_Opcode (h : MsgHdr) (v : Z) : MsgHdr :=
  mkMsgHdr (Id h) (Response h) v (Authoritative h) (RecursionDesired h)
    (Rcode h).

Definition hdr_Authoritative (h : MsgHdr) (v : bool) : MsgHdr :=
  mkMsgHdr (Id h) (Response h) (Opcode h) v (RecursionDesired h) (Rcode h).

Definition hdr_Rcode (h : MsgHdr) (v : Z) : MsgHdr :=
  mkMsgHdr (Id h) (Response h) (Opcode h) (Authoritative h)
    (RecursionDesired h) v.

(** [p.MsgHdr = f (p.MsgHdr)], for the assignment of one field. *)
Definition set_Hdr (st : store) (p : nat) (f : MsgHdr -> MsgHdr) : store :=
  let m := st p in
  put st p (mkMsg (f (Msg_Hdr m)) (Msg_Question m) (Msg_Answer m) (Msg_Ns m)
              (Msg_Extra m)).

(** [p.Question = qs] *)
Definition set_Question (st : store) (p : nat) (qs : list Question) : store :=
  let m := st p in
  put st p (mkMsg (Msg_Hdr m) qs (Msg_Answer m) (Msg_Ns m) (Msg_Extra m)).

Section MsgHelpers.

Variable K : MsgCodes.

(** [SetReply] creates a reply packet from a request message.  The
    assignments are made one after the other in the store, so that
    [request.Question[0]] is read after [dns.Question] was replaced by a
    new slice of one zero [Question]: it panics when the request is
    another message than [dns] and has no question.  A [nil] pointer
    panics at the first assignment. *)
Definition SetReply (st : store) (dns request : option nat)
    : outcome store :=
  match dns, request with
  | Some d, Some r =>
      let st := set_Hdr st d (fun h => hdr_Id h (Id (Msg_Hdr (st r)))) in
      let st := set_Hdr st d (fun h => hdr_Authoritative h true) in
      let st := set_Hdr st d (fun h => hdr_Response h true) in
      let st := set_Hdr st d (fun h => hdr_Opcode h (OpcodeQuery K)) in
      let st := set_Hdr st d (fun h => hdr_Rcode h (RcodeSuccess K)) in
      (* dns.Question = make([]Question, 1) *)
      let st := set_Question st d [Question0] in
      (* dns.Question[0] = request.Question[0] *)
      match Msg_Question (st r) with
      | [] => Panics
      | q :: _ => Returns (set_Question st d [q])
      end
  | _, _ => Panics
  end.

(** [SetQuestion] creates a question packet; [id] is what [Id()]
    returns. *)
Definition SetQuestion (dns : Msg) (z : string) (t : Z) (id : Z) : Msg :=
  let h := Msg_Hdr dns in
  mkMsg (mkMsgHdr id (Response h) (Opcode h) (Authoritative h) true (Rcode h))
    [mkQuestion z t ClassINET] (Msg_Answer dns) (Msg_Ns dns) (Msg_Extra dns).

(** [SetNotify] creates a notify packet. *)
Definition SetNotify (dns : Msg) (z : string) (id : Z) : Msg :=
  let h := Msg_Hdr dns in
  mkMsg (mkMsgHdr id (Response h) (OpcodeNotify K) true (RecursionDesired h)
           (Rcode h))
    [mkQuestion z TypeSOA ClassINET]
    (Msg_Answer dns) (Msg_Ns dns) (Msg_Extra dns).

(** [SetRcode] creates an error packet; the assignments are made as in
    [SetReply]. *)
Definition SetRcode (st : store) (dns request : option nat) (rcode : Z)
    : outcome store :=
  match dns, request with
  | Some d, Some r =>
      let st := set_Hdr st d (fun h => hdr_Rcode h rcode) in
      let st := set_Hdr st d (fun h => hdr_Opcode h (OpcodeQuery K)) in
      let st := set_Hdr st d (fun h => hdr_Response h true) in
      let st := set_Hdr st d (fun h => hdr_Authoritative h false) in
      let st := set_Hdr st d (fun h => hdr_Id h (Id (Msg_Hdr (st r)))) in
      (* dns.Question = make([]Question, 1) *)
      let st := set_Question st d [Question0] in
      (* dns.Question[0] = request.Question[0] *)
      match Msg_Question (st r) with
      | [] => Panics
      | q :: _ => Returns (set_Question st d [q])
      end
  | _, _ => Panics
  end.

(** [SetRcodeFormatError] creates a packet with FormError set. *)
Definition SetRcodeFormatError (dns request : Msg) : Msg :=
  mkMsg (mkMsgHdr (Id (Msg_Hdr request)) true (OpcodeQuery K) false
           (RecursionDesired (Msg_Hdr dns)) (RcodeFormatError K))
    (Msg_Question dns) (Msg_Answer dns) (Msg_Ns dns) (Msg_Extra dns).

(** [SetUpdate] makes the message a dynamic update packet. *)
Definition SetUpdate (dns : Msg) (z : string) (id : Z) : Msg :=
  let h := Msg_Hdr dns in
  mkMsg (mkMsgHdr id (Response h) (OpcodeUpdate K) (Authoritative h)
           (RecursionDesired h) (Rcode h))
    [mkQuestion z TypeSOA ClassINET]
    (Msg_Answer dns) (Msg_Ns dns) (Msg_Extra dns).

(** [SetIxfr] creates a message suitable for requesting an ixfr. *)
Definition SetIxfr (dns : Msg) (z : string) (serial : Z) (id : Z) : Msg :=
  let h := Msg_Hdr dns in
  mkMsg (mkMsgHdr id (Response h) (Opcode h) (Authoritative h)
           (RecursionDesired h) (Rcode h))
    [mkQuestion z (TypeIXFR K) ClassINET]
    (Msg_Answer dns)
    [RR_SOA (mkHeader z TypeSOA ClassINET DefaultTtl 0)
       EmptyString EmptyString serial 0 0 0 0]
    (Msg_Extra dns).

(** [SetAxfr] creates a message suitable for requesting an axfr. *)
Definition SetAxfr (dns : Msg) (z : string) (id : Z) : Msg :=
  let h := Msg_Hdr dns in
  mkMsg (mkMsgHdr id (Response h) (Opcode h) (Authoritative h)
           (RecursionDesired h) (Rcode h))
    [mkQuestion z (TypeAXFR K) ClassINET]
    (Msg_Answer dns) (Msg_Ns dns) (Msg_Extra dns).

(** [IsRcode] checks if the header of the packet has rcode set. *)
Definition IsRcode (dns : Msg) (rcode : Z) : bool :=
  if Z.of_nat (List.length (Msg_Question dns)) =? 0 then false
  else Rcode (Msg_Hdr dns) =? rcode.

(** [IsQuestion] returns true if the packet is a question. *)
Definition IsQuestion (dns : Msg) : bool :=
  if Z.of_nat (List.length (Msg_Question dns)) =? 0 then false
  else Bool.eqb (Response (Msg_Hdr dns)) false.

Definition IsRcodeFormatError (dns : Msg) : bool :=
  if Z.of_nat (List.length (Msg_Question dns)) =? 0 then false
  else Rcode (Msg_Hdr dns) =? RcodeFormatError K.

Definition IsUpdate (dns : Msg) : bool :=
  match Msg_Question dns with
  | [] => false
  | q :: _ => (Opcode (Msg_Hdr dns) =? OpcodeUpdate K) && (Qtype q =? TypeSOA)
  end.

Definition IsNotify (dns : Msg) : bool :=
  match Msg_Question dns with
  | [] => false
  | q :: _ =>
      (Opcode (Msg_Hdr dns) =? OpcodeNotify K) && (Qclass q =? ClassINET)
      && (Qtype q =? TypeSOA)
  end.

Definition IsAxfr (dns : Msg) : bool :=
  match Msg_Question dns with
  | [] => false
  | q :: _ =>
      (Opcode (Msg_Hdr dns) =? OpcodeQuery K) && (Qclass q =? ClassINET)
      && (Qtype q =? TypeAXFR K)
  end.

Definition IsIxfr (dns : Msg) : bool :=
  match Msg_Question dns with
  | [] => false
  | q :: _ =>
      (Opcode (Msg_Hdr dns) =? OpcodeQuery K) && (Qclass q =? ClassINET)
      && (Qtype q =? TypeIXFR K)
  end.

(** [IsTsig] checks if the message has a TSIG record as the last record
    in the additional section. *)
Definition IsTsig (dns : Msg) : bool :=
  match List.length (Msg_Extra dns) with
  | O => false
  | S n =>
      match nth_error (Msg_Extra dns) n with
      | Some r => Rrtype (Header r) =? TypeTSIG K
      | None => false
      end
  end.

(** [IsEdns0] checks if the message has an OPT record in the additional
    section. *)
Fixpoint IsEdns0_loop (extra : list RR) : bool :=
  match extra with
  | [] => false
  | r :: extra' =>
      if Rrtype (Header r) =? TypeOPT K then true else IsEdns0_loop extra'
  end.

Definition IsEdns0 (dns : Msg) : bool := IsEdns0_loop (Msg_Extra dns).

End MsgHelpers.

(** An example of codes: the ones that the RFCs assign. *)
Definition rfc_codes : MsgCodes := mkMsgCodes 0 4 5 0 1 251 252 250 41.

(** The zero value of [Msg]. *)
Definition Msg0 : Msg := mkMsg (mkMsgHdr 0 false 0 false false 0) [] [] [] [].

(** A store for the examples: the message at address 1 is a question for
    the MX records of miek.nl., every other message is new. *)
Definition question_at_1 : store :=
  put (fun _ => Msg0) 1 (SetQuestion Msg0 "miek.nl." TypeMX 7).

(* ================================================================= *)
(** ** examples/q/q.go: the helpers on records *)

(** The loop of [getRRset]: [l1] is appended to. *)
Fixpoint getRRset_loop (l1 l : list RR) (name : string) (t : Z) : list RR :=
  match l with
  | [] => l1
  | rr :: l' =>
      getRRset_loop
        (if String.eqb (Name (Header rr)) name && (Rrtype (Header rr) =? t)
         then (l1 ++ [rr])%list else l1)
        l' name t
  end.

(** [getRRset] returns the RRset belonging to the signature with name and
    type [t]. *)
Definition getRRset (l : list RR) (name : string) (t : Z) : list RR :=
  getRRset_loop [] l name t.

(** [s[lo:hi]], for [0 <= lo <= hi <= len(s)]. *)
Definition slice {A} (s : list A) (lo hi : nat) : list A :=
  firstn (hi - lo) (skipn lo s).

(** [shortRR] shortens the key and signature data of a record. *)
Definition shortRR (r : RR) : RR :=
  match r with
  | RR_DS h k a d _ => RR_DS h k a d "..."
  | RR_DNSKEY h fl p a _ => RR_DNSKEY h fl p a "..."
  | RR_RRSIG h tc a lb ot ex inc kt sn _ =>
      RR_RRSIG h tc a lb ot ex inc kt sn "..."
  | RR_NSEC3 h ha fl it sl _ hl nd bm =>
      RR_NSEC3 h ha fl it sl "-" hl nd
        (if 5 <? Z.of_nat (List.length bm) then slice bm 1 5 else bm)
  | _ => r
  end.

(** [l[i] = shortRR(l[i])] *)
Fixpoint short_at (i : nat) (l : list RR) : list RR :=
  match l, i with
  | [], _ => []
  | r :: l', O => shortRR r :: l'
  | r :: l', S i' => r :: short_at i' l'
  end.

(** The loop [for i := 0; i < len(l); i++ { l[i] = shortRR(l[i]) }], from
    [i] on, for the [n] indices that are left. *)
Fixpoint short_from (n i : nat) (l : list RR) : list RR :=
  match n with
  | O => l
  | S n' => short_from n' (S i) (short_at i l)
  end.

Definition short_section (l : list RR) : list RR :=
  short_from (List.length l) 0 l.

(** [shortMsg] walks through the message and shortens key and signature
    data. *)
Definition shortMsg (m : Msg) : Msg :=
  mkMsg (Msg_Hdr m) (Msg_Question m) (short_section (Msg_Answer m))
    (short_section (Msg_Ns m)) (short_section (Msg_Extra m)).

(** A token without its place. *)
Definition placeless (l : lex) : tokval * string * string :=
  (value l, token l, err l).

(** The tokens of the lexer, without their places. *)
Definition zlexer_text (E : Env) (input : string)
    : list (tokval * string * string) :=
  map placeless (zlexer E input).

(** What a turn of the lexer gives, with the places set to [a], [b]. *)
Definition zturn_at (a b : Z) (t : zturn) : zturn :=
  match t with
  | Go s out => Go (at_pos s a b) (map (fun l => set_pos l a b) out)
  | Halt out => Halt (map (fun l => set_pos l a b) out)
  end.

(* ================================================================= *)
(** * Properties *)

(** ** Strings *)


Lemma get_last (s : string) (c : ascii) :
  String.get (String.length s) (String c s) = Some (last_char c s).
Proof.
  revert c; induction s as [| c' s IH]; intros c; [reflexivity | ].
  simpl. simpl in IH. apply IH.
Qed.

Lemma index_last (s : string) (c : ascii) :
  index (String c s) (len (String c s) - 1) = Some (last_char c s).
Proof.
  unfold index, len. simpl String.length.
  replace (Z.of_nat (S (String.length s)) - 1) with (Z.of_nat (String.length s)) by lia.
  rewrite Nat2Z.id.
  destruct (Z.of_nat (String.length s) <? 0) eqn:H1; [apply Z.ltb_lt in H1; lia | ].
  destruct (Z.of_nat (S (String.length s)) <=? Z.of_nat (String.length s)) eqn:H2;
    [apply Z.leb_le in H2; lia | ].
  simpl orb. cbv iota. apply get_last.
Qed.

Lemma IsFqdn_cons (c : ascii) (s : string) :
  IsFqdn (String c s) = Ascii.eqb (last_char c s) ".".
Proof.
  unfold IsFqdn. rewrite index_last.
  destruct (len (String c s) =? 0) eqn:H; [ | reflexivity].
  apply Z.eqb_eq in H. unfold len in H. simpl in H. lia.
Qed.

Lemma last_char_app (s : string) (c c' : ascii) (o : string) :
  last_char c (s ++ String c' o) = last_char c' o.
Proof. revert c; induction s as [| d s IH]; intros c; simpl; auto. Qed.

(** Completing a name with a fully qualified origin qualifies it. *)
Lemma IsFqdn_app (s o : string) : IsFqdn o = true -> IsFqdn (s ++ o) = true.
Proof.
  destruct o as [| c' o]; [discriminate | ].
  intros H. rewrite IsFqdn_cons in H.
  destruct s as [| c s]; simpl.
  - rewrite IsFqdn_cons. exact H.
  - rewrite IsFqdn_cons, last_char_app. exact H.
Qed.

Lemma uint32_range (i : Z) : ttl32 (uint32 i).
Proof. unfold ttl32, uint32. apply Z.mod_pos_bound. reflexivity. Qed.

(** ** The readers of the rdata *)

Section Readers.

Context {A B : Type}.

Lemma rd_ret (P : A -> Prop) (a : A) : P a -> rd_spec P (ret a).
Proof.
  intros H c r c' Heq. inversion Heq; subst. split; [lia | ].
  intros a' Ha. inversion Ha; subst. exact H.
Qed.

Lemma rd_fail (P : A -> Prop) (f msg : string) (l : lex) :
  rd_spec P (fail f msg l).
Proof.
  intros c r c' Heq. inversion Heq; subst. split; [lia | discriminate].
Qed.

Lemma rd_bind (Q : A -> Prop) (P : B -> Prop) (m : Rd A) (k : A -> Rd B) :
  rd_spec Q m -> (forall a, Q a -> rd_spec P (k a)) -> rd_spec P (bind m k).
Proof.
  intros Hm Hk c r c' Heq. unfold bind in Heq.
  destruct (m c) as [[a | e] c1] eqn:Hmc.
  - destruct (Hm _ _ _ Hmc) as [Hlen Ha].
    destruct (Hk a (Ha a eq_refl) _ _ _ Heq) as [Hlen' Hb].
    split; [lia | exact Hb].
  - inversion Heq; subst. destruct (Hm _ _ _ Hmc) as [Hlen _].
    split; [exact Hlen | discriminate].
Qed.

Lemma rd_until_eol (P : A -> Prop) (body : lex -> A -> res A) :
  (forall l a a', P a -> body l a = Ok a' -> P a') ->
  forall acc, P acc -> rd_spec P (until_eol body acc).
Proof.
  intros Hbody acc Hacc c. revert acc Hacc.
  induction c as [| l c IH]; intros acc Hacc r c' Heq; simpl in Heq.
  - inversion Heq; subst. split; [lia | ]. intros a Ha. inversion Ha; subst; auto.
  - assert (Hend : (r, c') = (Ok acc, c) ->
              (List.length c' <= List.length (l :: c))%nat /\
              (forall a, r = Ok a -> P a)).
    { intros H. inversion H; subst. simpl. split; [lia | ].
      intros a Ha. inversion Ha; subst; auto. }
    assert (Hmore : match body l acc with
                    | Ok acc' => until_eol body acc' c
                    | Err e => (Err e, c)
                    end = (r, c') ->
              (List.length c' <= List.length (l :: c))%nat /\
              (forall a, r = Ok a -> P a)).
    { destruct (body l acc) as [acc' | e] eqn:Hb; intros H.
      - destruct (IH acc' (Hbody _ _ _ Hacc Hb) _ _ H) as [Hlen Ha].
        simpl. split; [lia | exact Ha].
      - inversion H; subst. simpl. split; [lia | discriminate]. }
    destruct (value l); auto.
Qed.

End Readers.

Lemma rd_recv : rd_spec (fun _ => True) recv.
Proof.
  intros c r c' Heq. destruct c; inversion Heq; subst; simpl; split; auto; lia.
Qed.

Lemma rd_atoi (f msg : string) (l : lex) :
  rd_spec (fun _ => True) (atoi f msg l).
Proof.
  unfold atoi. destruct (Atoi (token l)); [apply rd_ret; exact I | apply rd_fail].
Qed.

Lemma rd_domain (f msg o : string) (l : lex) :
  rd_spec (fun _ => True) (domain f msg o l).
Proof.
  unfold domain. destruct (negb _); [apply rd_fail | apply rd_ret; exact I].
Qed.

Lemma rd_date (E : Env) (f msg : string) (l : lex) :
  rd_spec (fun _ => True) (date E f msg l).
Proof.
  unfold date. destruct (dateToTime E (token l)); [apply rd_ret; exact I | apply rd_fail].
Qed.

Lemma rd_gather {A} (body : lex -> A -> res A) (acc : A) :
  rd_spec (fun _ => True) (until_eol body acc).
Proof. apply rd_until_eol; auto. Qed.

Lemma rd_slurpRemainder (f : string) :
  rd_spec (fun _ => True) (slurpRemainder f).
Proof.
  unfold slurpRemainder.
  apply (rd_bind (fun _ => True)); [apply rd_recv | intros l _].
  destruct (value l); try apply rd_fail; try (apply rd_ret; exact I).
  apply (rd_bind (fun _ => True)); [apply rd_recv | intros l' _].
  destruct (value l'); try apply rd_fail; apply rd_ret; exact I.
Qed.

Create HintDb rd.

#[local] Hint Resolve rd_recv rd_atoi rd_domain rd_date rd_gather
  rd_slurpRemainder : rd.

(** One step through a reader: a receive or a conversion, whose result is
    not constrained, then the rest; at the end the record is returned with
    the header it was given. *)
Ltac rd_step :=
  match goal with
  | |- rd_spec _ (bind _ _) =>
      apply (rd_bind (fun _ => True)); [solve [auto with rd] | intros ? _]
  | |- rd_spec _ (ret _) => apply rd_ret; reflexivity
  | |- rd_spec _ (fail _ _ _) => apply rd_fail
  | |- rd_spec _ (match ?x with _ => _ end) => destruct x
  end.

Section HeaderKept.

Variable E : Env.
Variable h : RR_Header.
Variables o f : string.

Lemma rd_Slurp (m : Rd RR) :
  rd_spec (keeps_header h) m -> rd_spec (keeps_header h) (Slurp f m).
Proof.
  intros Hm. unfold Slurp.
  apply (rd_bind (keeps_header h)); [exact Hm | intros r Hr].
  apply (rd_bind (fun _ => True)); [apply rd_slurpRemainder | intros _ _].
  apply rd_ret. exact Hr.
Qed.

Lemma rd_setA : rd_spec (keeps_header h) (setA E h f).
Proof. unfold setA. repeat rd_step. Qed.

Lemma rd_setAAAA : rd_spec (keeps_header h) (setAAAA E h f).
Proof. unfold setAAAA. repeat rd_step. Qed.

Lemma rd_setNS : rd_spec (keeps_header h) (setNS h o f).
Proof. unfold setNS. repeat rd_step. Qed.

Lemma rd_setMX : rd_spec (keeps_header h) (setMX h o f).
Proof. unfold setMX. repeat rd_step. Qed.

Lemma rd_setCNAME : rd_spec (keeps_header h) (setCNAME h o f).
Proof. unfold setCNAME. repeat rd_step. Qed.

Lemma rd_setSOA : rd_spec (keeps_header h) (setSOA h o f).
Proof. unfold setSOA. repeat rd_step. Qed.

Lemma rd_setSSHFP : rd_spec (keeps_header h) (setSSHFP h f).
Proof. unfold setSSHFP. repeat rd_step. Qed.

Lemma rd_setDNSKEY : rd_spec (keeps_header h) (setDNSKEY h f).
Proof. unfold setDNSKEY. repeat rd_step. Qed.

Lemma rd_setRRSIG : rd_spec (keeps_header h) (setRRSIG E h o f).
Proof. unfold setRRSIG. repeat rd_step. Qed.

Lemma rd_setNSEC : rd_spec (keeps_header h) (setNSEC E h o f).
Proof. unfold setNSEC. repeat rd_step. Qed.

Lemma rd_setNSEC3 : rd_spec (keeps_header h) (setNSEC3 E h o f).
Proof. unfold setNSEC3. repeat rd_step. Qed.

Lemma rd_setDS : rd_spec (keeps_header h) (setDS h f).
Proof. unfold setDS. repeat rd_step. Qed.

Lemma rd_setTXT : rd_spec (keeps_header h) (setTXT h f).
Proof. unfold setTXT. repeat rd_step. Qed.

(** [setRR] takes tokens from the channel, and the record it returns has
    the header [h]. *)
Lemma rd_setRR : rd_spec (keeps_header h) (setRR E h o f).
Proof.
  unfold setRR.
  repeat match goal with
         | |- rd_spec _ (if ?b then _ else _) => destruct b
         end;
    try apply rd_Slurp;
    auto using rd_setA, rd_setAAAA, rd_setNS, rd_setMX, rd_setCNAME,
      rd_setSOA, rd_setSSHFP, rd_setDNSKEY, rd_setRRSIG, rd_setNSEC,
      rd_setNSEC3, rd_setDS, rd_setTXT, rd_fail.
Qed.

End HeaderKept.

(** ** The parser *)

Lemma item_ok_error (e : option ParseError) : item_ok (mkToken None e).
Proof. split; exact I. Qed.

Lemma item_ok_RR (r : RR) :
  IsFqdn (Name (Header r)) = true -> ttl32 (Ttl (Header r)) ->
  item_ok (Token_RR r).
Proof.
  intros Hn Ht. split; unfold fqdn_item, ttl_item; simpl; [exact Hn | ].
  unfold ttl32 in Ht. lia.
Qed.

Lemma stringToTtl_range (l : lex) (f : string) (ttl : Z) :
  stringToTtl l f = inr ttl -> ttl32 ttl.
Proof.
  unfold stringToTtl. destruct (Atoi (token l)); intros H; inversion H.
  apply uint32_range.
Qed.

Lemma stringToTtl_error (l : lex) (f : string) (t : Token) :
  stringToTtl l f = inl t -> item_ok t.
Proof.
  unfold stringToTtl. destruct (Atoi (token l)); intros H; inversion H.
  apply item_ok_error.
Qed.

(** The loop goes on: the invariant is kept, nothing was sent and a token
    was taken. *)
Ltac keep_inv :=
  split;
  [ unfold parse_inv; simpl;
    repeat match goal with |- _ /\ _ => split end;
    auto using IsFqdn_app; try discriminate
  | split; [simpl; lia | constructor] ].

Section Turn.

Variable E : Env.
Variable sub : string -> string -> list Token.
Variables (f : string) (include : Z).

Hypothesis sub_ok : forall r1 f1, Forall item_ok (sub r1 f1).

(** One turn of the loop keeps the invariant, takes nothing back to the
    channel, and sends only items with a qualified name and a 32-bit TTL. *)
Lemma parseZone_turn_inv st h defttl origin l c :
  parse_inv st h defttl origin ->
  match parseZone_turn E sub f include st h defttl origin l c with
  | PGo st' h' defttl' origin' c' out =>
      parse_inv st' h' defttl' origin' /\
      (List.length c' <= List.length c)%nat /\
      Forall item_ok out
  | PReturn out => Forall item_ok out
  end.
Proof.
  intros (Ho & Hd & Ht & Hn).
  assert (Herr : forall msg l', Forall item_ok [Token_Error f msg l']).
  { intros. constructor; [apply item_ok_error | constructor]. }
  unfold parseZone_turn.
  destruct (nonempty (err l)); [apply Herr | ].
  destruct st; simpl in Hn;
    try (destruct (negb (tokval_beq _ _)); [apply Herr | ]);
    try solve [keep_inv].
  - (* _EXPECT_OWNER_DIR *)
    destruct (value l); try apply Herr; try solve [keep_inv].
    destruct (negb (snd (IsDomainName (token l)))); [apply Herr | ].
    destruct (IsFqdn (token l)) eqn:Hq; simpl; rewrite Hq; simpl; keep_inv.
  - (* _EXPECT_ANY *)
    destruct (value l); try apply Herr; try solve [keep_inv].
    + destruct (stringToTtl l f) as [e | ttl] eqn:Hs.
      * constructor; [eapply stringToTtl_error; eauto | constructor].
      * apply stringToTtl_range in Hs. keep_inv.
    + destruct (Str_class E _); [keep_inv | apply Herr].
  - (* _EXPECT_ANY_NOCLASS *)
    destruct (value l); try apply Herr; try solve [keep_inv].
    destruct (stringToTtl l f) as [e | ttl] eqn:Hs.
    + constructor; [eapply stringToTtl_error; eauto | constructor].
    + apply stringToTtl_range in Hs. keep_inv.
  - (* _EXPECT_ANY_NOTTL *)
    destruct (value l); try solve [keep_inv].
    destruct (Str_class E _); [keep_inv | apply Herr].
  - (* _EXPECT_RDATA *)
    destruct (setRR E h origin f c) as [[r | e] c'] eqn:Hs.
    + destruct (rd_setRR E h origin f _ _ _ Hs) as [Hlen Hr].
      specialize (Hr r eq_refl).
      split; [unfold parse_inv; simpl; intuition discriminate | ].
      split; [exact Hlen | ].
      constructor; [ | constructor].
      apply item_ok_RR; rewrite Hr; auto.
    + constructor; [apply item_ok_error | constructor].
  - (* _EXPECT_DIRTTL *)
    destruct (stringToTtl l f) as [e | ttl] eqn:Hs.
    + constructor; [eapply stringToTtl_error; eauto | constructor].
    + apply stringToTtl_range in Hs. keep_inv.
  - (* _EXPECT_DIRORIGIN *)
    destruct (IsFqdn (token l)) eqn:Hq; simpl; keep_inv.
  - (* _EXPECT_DIRINCLUDE *)
    destruct (Open E (token l)); [ | apply Herr].
    destruct (7 <? include + 1); [apply Herr | ].
    split; [unfold parse_inv; simpl; intuition | split; [lia | apply sub_ok]].
Qed.

(** The items of the loop, from a state that satisfies the invariant. *)
Lemma parseZone_loop_inv fuel : forall st h defttl origin c,
  parse_inv st h defttl origin ->
  Forall item_ok (parseZone_loop E sub f include fuel st h defttl origin c).
Proof.
  induction fuel as [| fuel IH]; intros st h defttl origin c Hinv; simpl;
    [constructor | ].
  destruct c as [| l c]; [constructor | ].
  pose proof (parseZone_turn_inv st h defttl origin l c Hinv) as Hturn.
  destruct (parseZone_turn E sub f include st h defttl origin l c)
    as [st' h' defttl' origin' c' out | out]; [ | exact Hturn].
  destruct Hturn as (Hinv' & _ & Hout).
  apply Forall_app. split; [exact Hout | apply IH; exact Hinv'].
Qed.

End Turn.

(** *** The fuel of the loop and the depth of the nesting are enough *)

Lemma parseZone_turn_length E sub f include st h defttl origin l c
    st' h' defttl' origin' c' out :
  parseZone_turn E sub f include st h defttl origin l c
    = PGo st' h' defttl' origin' c' out ->
  (List.length c' <= List.length c)%nat.
Proof.
  unfold parseZone_turn. intros H.
  destruct (nonempty (err l)); [discriminate | ].
  destruct st;
    match type of H with
    | context [setRR] =>
        destruct (setRR E h origin f c) as [[r | e] c1] eqn:Hs;
        [ inversion H; subst; apply (rd_setRR E h' origin' f _ _ _ Hs)
        | discriminate ]
    | _ =>
        try (destruct (negb (tokval_beq _ _)); [discriminate | ]);
        try (destruct (value l); try discriminate);
        try (destruct (stringToTtl l f); try discriminate);
        try (destruct (Str_class E _); try discriminate);
        try (destruct (negb (snd _)); try discriminate);
        try (destruct (Open E _); try discriminate;
             destruct (7 <? include + 1); try discriminate);
        inversion H; subst; lia
    end.
Qed.

(** With fuel for every token of the channel, more fuel changes nothing. *)
Lemma parseZone_loop_fuel E sub f include n : forall m st h defttl origin c,
  (List.length c <= n)%nat -> (List.length c <= m)%nat ->
  parseZone_loop E sub f include n st h defttl origin c
  = parseZone_loop E sub f include m st h defttl origin c.
Proof.
  induction n as [| n IH]; intros m st h defttl origin c Hn Hm.
  - destruct c; [ | simpl in Hn; lia]. destruct m; reflexivity.
  - destruct c as [| l c]; [destruct m; reflexivity | ].
    destruct m as [| m]; [simpl in Hm; lia | ].
    simpl in *.
    destruct (parseZone_turn E sub f include st h defttl origin l c)
      as [st' h' defttl' origin' c' out | out] eqn:Hturn; [ | reflexivity].
    apply parseZone_turn_length in Hturn.
    f_equal. apply IH; lia.
Qed.

(** The nested parse is called below the cap on the nesting only. *)
Lemma parseZone_turn_sub E sub1 sub2 f include st h defttl origin l c :
  (include + 1 <= 7 -> forall r1 f1, sub1 r1 f1 = sub2 r1 f1) ->
  parseZone_turn E sub1 f include st h defttl origin l c
  = parseZone_turn E sub2 f include st h defttl origin l c.
Proof.
  intros Hsub. unfold parseZone_turn.
  destruct (nonempty (err l)); [reflexivity | ].
  destruct st; try reflexivity.
  destruct (negb _); [reflexivity | ].
  destruct (Open E (token l)); [ | reflexivity].
  destruct (7 <? include + 1) eqn:Hcap; [reflexivity | ].
  apply Z.ltb_ge in Hcap. rewrite (Hsub Hcap). reflexivity.
Qed.

Lemma parseZone_loop_sub E sub1 sub2 f include fuel :
  (include + 1 <= 7 -> forall r1 f1, sub1 r1 f1 = sub2 r1 f1) ->
  forall st h defttl origin c,
  parseZone_loop E sub1 f include fuel st h defttl origin c
  = parseZone_loop E sub2 f include fuel st h defttl origin c.
Proof.
  intros Hsub. induction fuel as [| fuel IH]; intros; simpl; [reflexivity | ].
  destruct c as [| l c]; [reflexivity | ].
  rewrite (parseZone_turn_sub E sub1 sub2) by exact Hsub.
  destruct (parseZone_turn E sub2 f include st h defttl origin l c);
    [rewrite IH | ]; reflexivity.
Qed.

Lemma parseZone_unfold E depth r f include :
  parseZone E depth r f include
  = parseZone_loop E
      (fun r1 f1 =>
         match depth with
         | O => []
         | S depth' => parseZone E depth' r1 f1 (include + 1)
         end)
      f include (List.length (zlexer E r))
      _EXPECT_OWNER_DIR header0 DefaultTtl "." (zlexer E r).
Proof. destruct depth; reflexivity. Qed.

(** A depth that covers what is left of the 7 levels is never used up. *)
Lemma parseZone_depth E d1 : forall d2 r f include,
  7 - include <= Z.of_nat d1 -> 7 - include <= Z.of_nat d2 ->
  parseZone E d1 r f include = parseZone E d2 r f include.
Proof.
  induction d1 as [| d1 IH]; intros d2 r f include H1 H2;
    rewrite (parseZone_unfold E _ r), (parseZone_unfold E d2 r);
    apply parseZone_loop_sub; intros Hcap r1 f1.
  - lia.
  - destruct d2 as [| d2]; [lia | ]. apply IH; lia.
Qed.

(** *** What every item of the stream satisfies *)

Lemma parse_inv_init : parse_inv _EXPECT_OWNER_DIR header0 DefaultTtl ".".
Proof.
  unfold parse_inv, ttl32, DefaultTtl. simpl.
  repeat match goal with |- _ /\ _ => split end;
    try reflexivity; try lia; discriminate.
Qed.

Lemma parseZone_items E depth : forall r f include,
  Forall item_ok (parseZone E depth r f include).
Proof.
  induction depth as [| depth IH]; intros r f include;
    rewrite parseZone_unfold; apply parseZone_loop_inv;
    auto using parse_inv_init.
Qed.

(** *** The first error ends the stream, apart from $INCLUDE *)

Lemma error_is_last_app (a b : list Token) :
  Forall (fun t => is_error t = false) a ->
  error_is_last b = true /\ (count_errors b <= 1)%nat ->
  error_is_last (a ++ b) = true /\ (count_errors (a ++ b) <= 1)%nat.
Proof.
  intros Ha Hb. induction Ha as [| t a Ht Ha IH]; [exact Hb | ].
  destruct IH as [IH1 IH2]. unfold count_errors in *. simpl.
  rewrite Ht, IH1. simpl. auto.
Qed.

Lemma parseZone_turn_errors E sub f include st h defttl origin l c :
  (forall p, Open E p = None) ->
  match parseZone_turn E sub f include st h defttl origin l c with
  | PGo _ _ _ _ _ out => Forall (fun t => is_error t = false) out
  | PReturn out => exists t, out = [t]
  end.
Proof.
  intros Hfs. unfold parseZone_turn.
  destruct (nonempty (err l)); [eauto | ].
  destruct st;
    match goal with
    | |- context [setRR] =>
        destruct (setRR E h origin f c) as [[r | e] c1];
        [constructor; [reflexivity | constructor] | eauto]
    | _ =>
        try (destruct (negb (tokval_beq _ _)); [eauto | ]);
        try rewrite Hfs;
        try (destruct (value l); eauto);
        try (destruct (stringToTtl l f); eauto);
        try (destruct (Str_class E _); eauto);
        try (destruct (negb (snd _)); eauto)
    end.
Qed.

Lemma parseZone_loop_errors E sub f include fuel :
  (forall p, Open E p = None) ->
  forall st h defttl origin c,
  let items := parseZone_loop E sub f include fuel st h defttl origin c in
  error_is_last items = true /\ (count_errors items <= 1)%nat.
Proof.
  intros Hfs. induction fuel as [| fuel IH]; intros; subst items; simpl;
    [split; [reflexivity | unfold count_errors; simpl; lia] | ].
  destruct c as [| l c]; [split; [reflexivity | unfold count_errors; simpl; lia] | ].
  pose proof (parseZone_turn_errors E sub f include st h defttl origin l c Hfs)
    as Hturn.
  destruct (parseZone_turn E sub f include st h defttl origin l c)
    as [st' h' defttl' origin' c' out | out].
  - apply error_is_last_app; [exact Hturn | apply IH].
  - destruct Hturn as [t ->]. unfold count_errors. simpl.
    rewrite orb_true_r. split; [reflexivity | ]. destruct (is_error t); simpl; lia.
Qed.

(** When no file can be opened, the stream holds at most one error, and
    nothing after it. *)
Lemma ParseZone_first_error_ends (E : Env) (r file : string) :
  (forall p, Open E p = None) ->
  error_is_last (ParseZone E r file) = true /\
  (count_errors (ParseZone E r file) <= 1)%nat.
Proof.
  intros Hfs. unfold ParseZone. rewrite parseZone_unfold.
  apply parseZone_loop_errors. exact Hfs.
Qed.

(** ** The lexer *)


Lemma map_snd_tag (d : Z) (out : list lex) : map snd (tag d out) = out.
Proof.
  unfold tag. rewrite map_map. simpl. apply map_id.
Qed.




(** The test that decides how a term made of nested tests goes on. *)
Ltac head_test t :=
  lazymatch t with
  | match ?u with _ => _ end => head_test u
  | andb ?a _ => head_test a
  | orb ?a _ => head_test a
  | negb ?a => head_test a
  | _ => t
  end.





Lemma lacks_cons (x y : ascii) (r : string) :
  lacks x (String y r) = true -> Ascii.eqb y x = false /\ lacks x r = true.
Proof.
  simpl. intros H. apply andb_prop in H. destruct H as [H1 H2].
  apply negb_true_iff in H1. auto.
Qed.




(* ================================================================= *)
(** * The claims *)

(** C1. Every RR that [ParseZone] emits has a fully qualified owner name:
    the name of its header ends in a dot, for every input, file name and
    environment.  (An owner that is not fully qualified has the origin
    appended, and the origin, "." at first and changed by $ORIGIN only,
    always ends in a dot: see [parse_inv].) *)
Theorem ParseZone_names_qualified (E : Env) (r file : string) :
  Forall fqdn_item (ParseZone E r file).
Proof.
  unfold ParseZone.
  eapply Forall_impl; [ | apply parseZone_items].
  intros t [H _]. exact H.
Qed.

(** An owner that is not fully qualified is completed with the origin. *)
Example ParseZone_owner_completed :
  forall ip dt fs,
  ParseZone (std_env ip dt fs) ("www NS ns" ++ nl) EmptyString
  = [Token_RR (RR_NS (mkHeader "www." TypeNS ClassINET DefaultTtl 0) "ns.")].
Proof. intros. vm_compute. reflexivity. Qed.

(** C6, as stated, fails: the TTL text "-1" is accepted by [strconv.Atoi]
    and truncated to 32 bits, and the RR is emitted with TTL 4294967295. *)
Lemma ParseZone_ttl_above_2_31 :
  ~ Forall (ttl_item (2 ^ 31 - 1))
      (ParseZone (ex_env no_file) ("a. -1 NS b." ++ nl) EmptyString).
Proof.
  assert (Heq :
    ParseZone (ex_env no_file) ("a. -1 NS b." ++ nl) EmptyString
    = [Token_RR (RR_NS (mkHeader "a." TypeNS ClassINET 4294967295 0) "b.")])
    by (vm_compute; reflexivity).
  rewrite Heq. intros H. inversion H as [| t ts Ht _]; subst.
  unfold ttl_item in Ht. cbn [tok_RR Token_RR Header Ttl] in Ht. lia.
Qed.

(** The same with the value of $TTL. *)
Example ParseZone_default_ttl_above_2_31 :
  forall ip dt fs,
  ParseZone (std_env ip dt fs)
    ("$TTL 4294967295" ++ nl ++ "a. NS b." ++ nl) EmptyString
  = [Token_RR (RR_NS (mkHeader "a." TypeNS ClassINET 4294967295 0) "b.")].
Proof. intros. vm_compute. reflexivity. Qed.

(** C6, amended. Every RR that [ParseZone] emits has a TTL of at most
    2^32 - 1: the TTL is the value of [strconv.Atoi] on the text of the
    field, or of the value of $TTL, truncated to [uint32], and no bound of
    2^31 - 1 is enforced. *)
Theorem ParseZone_ttl_uint32 (E : Env) (r file : string) :
  Forall (ttl_item (2 ^ 32 - 1)) (ParseZone E r file).
Proof.
  unfold ParseZone.
  eapply Forall_impl; [ | apply parseZone_items].
  intros t [_ H]. exact H.
Qed.


(** The tokens of that input. *)
Example zlexer_trailing_blank :
  forall E,
  map (fun l => (value l, token l)) (zlexer E ("a " ++ nl))
  = [(_OWNER, "a"); (_BLANK, " "); (_NEWLINE, nl)].
Proof. intros E. reflexivity. Qed.

(** Two adjacent [_BLANK] tokens: inside braces, a comment that starts
    right after a word drops the word at the end of the line, between the
    [_BLANK] before the word and the [_BLANK] of the next line. *)
Example zlexer_adjacent_blanks :
  forall E,
  map (fun l => (value l, token l)) (zlexer E ("(a b;" ++ nl ++ " c"))
  = [(_OWNER, "a"); (_BLANK, " "); (_BLANK, " "); (_STRING, "c")].
Proof. intros E. reflexivity. Qed.

(** That input is one on which a comment inside braces drops a word. *)
Example zlexer_adjacent_blanks_dropped :
  forall E, comment_drops_word E ("(a b;" ++ nl ++ " c") = true.
Proof. intros E. reflexivity. Qed.



(** C8. [Push] returns true and appends [r] exactly when the set is empty
    or [r] has the name and the class of the first RR of the set, whatever
    the TTLs are; when it returns false the set is unchanged. *)
Theorem Push_spec (s : RRset) (r : RR) :
  (fits s r -> Push s r = ((s ++ [r])%list, true)) /\
  (~ fits s r -> Push s r = (s, false)).
Proof.
  unfold fits, Push. destruct s as [| r0 s]; [split; [reflexivity | tauto] | ].
  destruct (String.eqb_spec (Name (Header r0)) (Name (Header r))) as [Hn | Hn];
    simpl.
  - destruct (Z.eqb_spec (Class (Header r0)) (Class (Header r))) as [Hc | Hc];
      simpl.
    + split; [reflexivity | ]. intros H. exfalso. apply H. right.
      exists r0, s. auto.
    + split; [ | reflexivity]. intros [H | (r1 & s1 & Heq & _ & Hc')];
        [discriminate | ]. inversion Heq; subst. contradiction.
  - split; [ | reflexivity]. intros [H | (r1 & s1 & Heq & Hn' & _)];
      [discriminate | ]. inversion Heq; subst. contradiction.
Qed.

(** An RR with the name and the class of the set, and another TTL, is
    taken. *)
Lemma Push_spec_witness :
  Push [RR_NS (mkHeader "a." TypeNS ClassINET 3600 0) "b."]
       (RR_NS (mkHeader "a." TypeNS ClassINET 60 0) "c.")
  = ([RR_NS (mkHeader "a." TypeNS ClassINET 3600 0) "b.";
      RR_NS (mkHeader "a." TypeNS ClassINET 60 0) "c."], true).
Proof.
  apply (proj1 (Push_spec
                  [RR_NS (mkHeader "a." TypeNS ClassINET 3600 0) "b."]
                  (RR_NS (mkHeader "a." TypeNS ClassINET 60 0) "c."))).
  right. eexists. eexists. split; [reflexivity | split; reflexivity].
Defined.

(** An RR of another name is refused, and the set stays as it was. *)
Example Push_other_name :
  Push [RR_NS (mkHeader "a." TypeNS ClassINET 3600 0) "b."]
       (RR_NS (mkHeader "z." TypeNS ClassINET 3600 0) "b.")
  = ([RR_NS (mkHeader "a." TypeNS ClassINET 3600 0) "b."], false).
Proof. reflexivity. Qed.

(** C9. [NewRR] indexes [s[len(s)-1]]: on the empty string the index is
    out of range and [NewRR] panics, returning neither an RR nor an error;
    on every other string the index is in range and [NewRR] returns. *)
Theorem NewRR_panics_on_empty (E : Env) (s : string) :
  (s = EmptyString -> index s (len s - 1) = None /\ NewRR E s = Panics) /\
  (s <> EmptyString ->
     (exists x, index s (len s - 1) = Some x) /\ NewRR E s <> Panics).
Proof.
  split.
  - intros ->. split; reflexivity.
  - intros Hne. destruct s as [| c s]; [contradiction | ].
    unfold NewRR. rewrite index_last. split; [eauto | ].
    destruct (negb _); discriminate.
Qed.

Lemma NewRR_panics_on_empty_witness :
  (index EmptyString (len EmptyString - 1) = None /\
   NewRR (ex_env no_file) EmptyString = Panics) /\
  ((exists x, index "a. NS b." (len "a. NS b." - 1) = Some x) /\
   NewRR (ex_env no_file) "a. NS b." <> Panics).
Proof.
  split.
  - apply (proj1 (NewRR_panics_on_empty (ex_env no_file) EmptyString)).
    reflexivity.
  - apply (proj2 (NewRR_panics_on_empty (ex_env no_file) "a. NS b.")).
    discriminate.
Defined.

(** Without a closing newline, [NewRR] adds one. *)
Example NewRR_adds_newline :
  forall ip dt fs,
  NewRR (std_env ip dt fs) "a. NS b."
  = Returns (Some (RR_NS (mkHeader "a." TypeNS ClassINET DefaultTtl 0) "b."),
             None).
Proof. intros. vm_compute. reflexivity. Qed.

(** C10. In the state [_EXPECT_ANY_NOTTL] (after the owner, a TTL and a
    blank) a token that is neither a [_CLASS] nor an [_RRTYPE] is taken
    with no error and no change of state; so that words between the TTL
    and the RR type are skipped and the record is parsed all the same. *)
Theorem EXPECT_ANY_NOTTL_skips :
  (forall E sub f include h defttl origin l c,
     err l = EmptyString -> value l <> _CLASS -> value l <> _RRTYPE ->
     parseZone_turn E sub f include _EXPECT_ANY_NOTTL h defttl origin l c
     = PGo _EXPECT_ANY_NOTTL h defttl origin c []) /\
  (forall ip dt fs,
     ParseZone (std_env ip dt fs) ("a. 300 foo bar NS b." ++ nl) EmptyString
     = [Token_RR (RR_NS (mkHeader "a." TypeNS ClassINET 300 0) "b.")]).
Proof.
  split.
  - intros E sub f include h defttl origin l c He Hc Hr.
    unfold parseZone_turn. rewrite He. simpl.
    destruct (value l); try reflexivity; contradiction.
  - intros. vm_compute. reflexivity.
Qed.

Lemma EXPECT_ANY_NOTTL_skips_witness :
  parseZone_turn (ex_env no_file) (fun _ _ => []) EmptyString 0
    _EXPECT_ANY_NOTTL (mkHeader "a." 0 ClassINET 300 0) DefaultTtl "."
    (mkLex "foo" EmptyString _STRING 1 11) []
  = PGo _EXPECT_ANY_NOTTL (mkHeader "a." 0 ClassINET 300 0) DefaultTtl "."
      [] [].
Proof.
  apply (proj1 EXPECT_ANY_NOTTL_skips (ex_env no_file) (fun _ _ => [])
           EmptyString 0 (mkHeader "a." 0 ClassINET 300 0) DefaultTtl "."
           (mkLex "foo" EmptyString _STRING 1 11) []);
    [reflexivity | discriminate | discriminate].
Defined.

(** C2. The code does not do what the claim says: after the value of
    $ORIGIN the state stays [_EXPECT_DIRORIGIN] (the case lacks the
    [st = _EXPECT_OWNER_DIR] that the case of $TTL has), so that the
    newline that ends the directive is refused; the stream is that one
    error, and no RR. *)
Theorem ParseZone_origin_directive :
  forall ip dt fs,
  ParseZone (std_env ip dt fs)
    ("$ORIGIN miek.nl." ++ nl ++ "$TTL 300" ++ nl ++ "www IN A 10.0.0.1" ++ nl)
    EmptyString
  = [Token_Error EmptyString "Expecting $ORIGIN value, not this..."
       (mkLex nl EmptyString _NEWLINE 1 17)].
Proof. intros. vm_compute. reflexivity. Qed.

(** The turn at fault: the value of $ORIGIN is taken and the state is
    left as it was. *)
Example EXPECT_DIRORIGIN_stays :
  forall E sub f include h defttl origin c,
  parseZone_turn E sub f include _EXPECT_DIRORIGIN h defttl origin
    (mkLex "miek.nl." EmptyString _STRING 1 17) c
  = PGo _EXPECT_DIRORIGIN h defttl "miek.nl." c [].
Proof. intros. reflexivity. Qed.

(** C3. The code does not do what the claim says: an error inside an
    included file is sent, the nested [parseZone] returns, and the outer
    one goes on with the lines after the $INCLUDE.  Here the file "inc"
    holds the line "x": the stream has two errors, and an RR after the
    first. *)
Theorem ParseZone_goes_on_after_include_error :
  forall ip dt,
  let items :=
    ParseZone (std_env ip dt (one_file "inc" ("x" ++ nl)))
      ("$INCLUDE inc" ++ nl ++ "a. NS b." ++ nl ++ "$INCLUDE inc" ++ nl)
      "zone" in
  items
  = [Token_Error "inc" "Error at the start" (mkLex "x" EmptyString _STRING 1 2);
     Token_RR (RR_NS (mkHeader "a." TypeNS ClassINET DefaultTtl 0) "b.");
     Token_Error "inc" "Error at the start" (mkLex "x" EmptyString _STRING 1 2)]
  /\ count_errors items = 2%nat
  /\ error_is_last items = false.
Proof. intros. vm_compute. repeat split. Qed.

(** C4. The code does not do what the claim says: inside the quotes the
    semicolon is kept, but it does not reset [space] as the other
    characters of a word do, so that the blank after it is not sent; the
    text of the TXT record lacks that blank. *)
Theorem ParseZone_quoted_semicolon :
  forall ip dt fs,
  ParseZone (std_env ip dt fs)
    ("miek.nl. IN TXT " ++ dq ++ "hello ; world" ++ dq ++ nl) EmptyString
  = [Token_RR
       (RR_TXT (mkHeader "miek.nl." TypeTXT ClassINET DefaultTtl 0)
          "hello ;world")].
Proof. intros. vm_compute. reflexivity. Qed.

(** C5. The code does not do what the claim says: a line that begins with
    white space begins with a [_BLANK] token, which the parser refuses in
    the state [_EXPECT_OWNER_DIR]; the name of the previous RR is not
    carried over. *)
Theorem ParseZone_owner_left_blank :
  forall ip dt fs,
  ParseZone (std_env ip dt fs) ("a. NS b." ++ nl ++ " NS c." ++ nl) EmptyString
  = [Token_RR (RR_NS (mkHeader "a." TypeNS ClassINET DefaultTtl 0) "b.");
     Token_Error EmptyString "Error at the start"
       (mkLex " " EmptyString _BLANK 2 1)].
Proof. intros. vm_compute. reflexivity. Qed.

(** Whatever the state of the record before, a [_BLANK] where an owner or
    a directive is expected ends the parse. *)
Example EXPECT_OWNER_DIR_blank :
  forall E sub f include h defttl origin l c,
  err l = EmptyString -> value l = _BLANK ->
  parseZone_turn E sub f include _EXPECT_OWNER_DIR h defttl origin l c
  = PReturn [Token_Error f "Error at the start" l].
Proof.
  intros E sub f include h defttl origin l c He Hv.
  unfold parseZone_turn. rewrite He, Hv. reflexivity.
Qed.

(* ================================================================= *)
(** * Further properties *)

(** ** The RRset *)

Lemma Push_taken (s s' : RRset) (r : RR) :
  Push s r = (s', true) -> s' = (s ++ [r])%list.
Proof.
  unfold Push. destruct s as [| r0 s]; [intros H; inversion H; reflexivity | ].
  destruct (negb (String.eqb _ _)); [discriminate | ].
  destruct (negb (_ =? _)); [discriminate | ].
  intros H; inversion H; reflexivity.
Qed.

(** X1. [Pop] undoes [Push]: after a [Push] that took [r], [Pop] returns
    [r] and leaves the set as it was before; on the empty set [Pop]
    returns nothing and leaves the set empty. *)
Theorem Pop_after_Push (s s' : RRset) (r : RR) :
  (Push s r = (s', true) -> Pop s' = (s, Some r)) /\
  Pop NewRRset = (NewRRset, None).
Proof.
  split; [ | reflexivity].
  intros H. apply Push_taken in H. subst s'.
  unfold Pop. rewrite length_app. simpl. rewrite Nat.add_1_r.
  rewrite firstn_app, firstn_all, Nat.sub_diag. simpl. rewrite app_nil_r.
  rewrite nth_error_app2 by lia. rewrite Nat.sub_diag. reflexivity.
Qed.

Lemma Pop_after_Push_witness :
  Pop [RR_NS (mkHeader "a." TypeNS ClassINET 3600 0) "b.";
       RR_NS (mkHeader "a." TypeNS ClassINET 60 0) "c."]
  = ([RR_NS (mkHeader "a." TypeNS ClassINET 3600 0) "b."],
     Some (RR_NS (mkHeader "a." TypeNS ClassINET 60 0) "c.")).
Proof.
  apply (proj1 (Pop_after_Push
                  [RR_NS (mkHeader "a." TypeNS ClassINET 3600 0) "b."] _
                  (RR_NS (mkHeader "a." TypeNS ClassINET 60 0) "c."))).
  reflexivity.
Defined.

Lemma Push_same_name_class (r0 : RR) (s : RRset) (r : RR) :
  Forall (same_name_class r0) s ->
  exists s', fst (Push (r0 :: s) r) = r0 :: s' /\
             Forall (same_name_class r0) s'.
Proof.
  intros Hs. unfold Push.
  destruct (String.eqb_spec (Name (Header r0)) (Name (Header r))) as [Hn | Hn];
    simpl; [ | eauto].
  destruct (Z.eqb_spec (Class (Header r0)) (Class (Header r))) as [Hc | Hc];
    simpl; [ | eauto].
  exists (s ++ [r])%list. split; [reflexivity | ].
  apply Forall_app. split; [exact Hs | ].
  constructor; [split; congruence | constructor].
Qed.

Lemma pushed_agree (s : RRset) :
  pushed s ->
  match s with
  | [] => True
  | r0 :: rest => Forall (same_name_class r0) rest
  end.
Proof.
  induction 1 as [| s r Hs IH]; [exact I | ].
  destruct s as [| r0 rest]; [simpl; constructor | ].
  destruct (Push_same_name_class r0 rest r IH) as (s' & Heq & Hs').
  rewrite Heq. exact Hs'.
Qed.

(** X2. The invariant of the RRset: in a set built by [Push] from the
    empty set, every RR has the name and the class of the first one. *)
Theorem pushed_same_name_class (s : RRset) :
  pushed s ->
  match s with
  | [] => True
  | r0 :: rest => Forall (same_name_class r0) rest
  end.
Proof. exact (pushed_agree s). Qed.

Lemma pushed_same_name_class_witness :
  Forall (same_name_class (RR_NS (mkHeader "a." TypeNS ClassINET 3600 0) "b."))
    [RR_NS (mkHeader "a." TypeNS ClassINET 60 0) "c."].
Proof.
  apply (pushed_same_name_class
           [RR_NS (mkHeader "a." TypeNS ClassINET 3600 0) "b.";
            RR_NS (mkHeader "a." TypeNS ClassINET 60 0) "c."]).
  apply (pushed_Push [RR_NS (mkHeader "a." TypeNS ClassINET 3600 0) "b."]
           (RR_NS (mkHeader "a." TypeNS ClassINET 60 0) "c.")).
  apply (pushed_Push [] (RR_NS (mkHeader "a." TypeNS ClassINET 3600 0) "b.")).
  apply pushed_new.
Defined.

Lemma Ok_loop_spec (r0 : RR) (rest : list RR) :
  Ok_loop (Ttl (Header r0)) (Name (Header r0)) (Class (Header r0)) rest = true
  <-> Forall (fun r => same_ttl r0 r /\ same_name_class r0 r) rest.
Proof.
  unfold same_ttl, same_name_class.
  induction rest as [| r rest IH]; simpl; [split; [constructor | reflexivity] | ].
  destruct (Z.eqb_spec (Ttl (Header r)) (Ttl (Header r0))) as [Ht | Ht]; simpl.
  - destruct (String.eqb_spec (Name (Header r)) (Name (Header r0)))
      as [Hn | Hn]; simpl.
    + destruct (Z.eqb_spec (Class (Header r)) (Class (Header r0)))
        as [Hc | Hc]; simpl.
      * rewrite IH. split; [intros H; constructor; auto | ].
        intros H; inversion H; auto.
      * split; [discriminate | ]. intros H; inversion H; tauto.
    + split; [discriminate | ]. intros H; inversion H; tauto.
  - split; [discriminate | ]. intros H; inversion H; tauto.
Qed.

(** X3. [Ok] panics on the empty set and on no other; on a set that is
    not empty it returns true exactly when every RR after the first has
    the TTL, the name and the class of the first. *)
Theorem RRset_Ok_spec (s : RRset) :
  (RRset_Ok s = Panics <-> s = []) /\
  (forall r0 rest, s = r0 :: rest ->
     (RRset_Ok s = Returns true <->
      Forall (fun r => same_ttl r0 r /\ same_name_class r0 r) rest)).
Proof.
  split.
  - destruct s; simpl; split; intros H; try reflexivity; discriminate.
  - intros r0 rest ->. simpl. rewrite <- Ok_loop_spec.
    split; [intros H; inversion H; reflexivity | intros ->; reflexivity].
Qed.

Lemma RRset_Ok_spec_witness :
  RRset_Ok [RR_NS (mkHeader "a." TypeNS ClassINET 60 0) "b.";
            RR_NS (mkHeader "a." TypeNS ClassINET 60 0) "c."]
  = Returns true.
Proof.
  apply (proj2 (RRset_Ok_spec _)
           (RR_NS (mkHeader "a." TypeNS ClassINET 60 0) "b.")
           [RR_NS (mkHeader "a." TypeNS ClassINET 60 0) "c."] eq_refl).
  constructor; [repeat split | constructor].
Defined.

(** X4. [Ok] on what [Push] builds: a set built by [Push] that is not
    empty is [Ok] exactly when its RRs all have the TTL of the first; the
    names and the classes agree already. *)
Theorem pushed_Ok (r0 : RR) (rest : list RR) :
  pushed (r0 :: rest) ->
  (RRset_Ok (r0 :: rest) = Returns true <-> Forall (same_ttl r0) rest).
Proof.
  intros Hp. apply pushed_agree in Hp.
  assert (Hok : RRset_Ok (r0 :: rest) = Returns true <->
                Forall (fun r => same_ttl r0 r /\ same_name_class r0 r) rest).
  { simpl. rewrite <- Ok_loop_spec.
    split; [intros H; inversion H; reflexivity | intros ->; reflexivity]. }
  rewrite Hok. rewrite Forall_forall in Hp. rewrite !Forall_forall.
  split; intros H r Hr; [apply H; exact Hr | split; auto].
Qed.

Lemma pushed_Ok_witness :
  RRset_Ok [RR_NS (mkHeader "a." TypeNS ClassINET 60 0) "b.";
            RR_NS (mkHeader "a." TypeNS ClassINET 60 0) "c."]
  = Returns true.
Proof.
  apply (proj2 (pushed_Ok (RR_NS (mkHeader "a." TypeNS ClassINET 60 0) "b.")
                  [RR_NS (mkHeader "a." TypeNS ClassINET 60 0) "c."]
                  (pushed_Push
                     [RR_NS (mkHeader "a." TypeNS ClassINET 60 0) "b."]
                     (RR_NS (mkHeader "a." TypeNS ClassINET 60 0) "c.")
                     (pushed_Push []
                        (RR_NS (mkHeader "a." TypeNS ClassINET 60 0) "b.")
                        pushed_new)))).
  constructor; [reflexivity | constructor].
Defined.

(** ** Names *)

Lemma len_app (a b : string) : len (a ++ b) = len a + len b.
Proof.
  unfold len. induction a as [| c a IH]; simpl String.length; [reflexivity | ].
  simpl in IH. lia.
Qed.

Lemma IsFqdn_dot (s : string) : IsFqdn (s ++ ".") = true.
Proof. apply IsFqdn_app. reflexivity. Qed.

(** X5. [Fqdn] qualifies: its result is fully qualified, it leaves a fully
    qualified name as it is, and applying it twice is applying it once. *)
Theorem Fqdn_qualifies (s : string) :
  IsFqdn (Fqdn s) = true /\
  (IsFqdn s = true -> Fqdn s = s) /\
  Fqdn (Fqdn s) = Fqdn s.
Proof.
  assert (H1 : IsFqdn (Fqdn s) = true).
  { unfold Fqdn. destruct (IsFqdn s) eqn:H; [exact H | apply IsFqdn_dot]. }
  split; [exact H1 | split].
  - intros H. unfold Fqdn. rewrite H. reflexivity.
  - unfold Fqdn at 1. rewrite H1. reflexivity.
Qed.

Lemma Fqdn_qualifies_witness : Fqdn "miek.nl." = "miek.nl.".
Proof.
  apply (proj1 (proj2 (Fqdn_qualifies "miek.nl."))). reflexivity.
Defined.

Lemma has_letter_app (a b : string) :
  has_letter (a ++ b) = has_letter a || has_letter b.
Proof.
  induction a as [| c a IH]; simpl; [reflexivity | ].
  rewrite IH, orb_assoc. reflexivity.
Qed.

Lemma IsDomainName_loop_letter (s : string) : forall last ok partlen labels n,
  IsDomainName_loop s last ok partlen labels = Some (n, true) ->
  ok = true \/ has_letter s = true.
Proof.
  induction s as [| c s IH]; intros last ok partlen labels n H; simpl in H.
  - inversion H. auto.
  - simpl has_letter. fold (letter c) in H.
    destruct (letter c); [right; reflexivity | ].
    simpl orb.
    repeat match type of H with
           | (if ?b then _ else _) = _ => destruct b
           end;
      try discriminate; eapply IH; eassumption.
Qed.

(** X6. A name without a letter, an underscore or a star is not a domain
    name for [IsDomainName]: a valid name holds at least one of them (so
    that a name made of digits and dots only is refused). *)
Theorem IsDomainName_needs_letter (s : string) :
  snd (IsDomainName s) = true -> has_letter s = true.
Proof.
  unfold IsDomainName.
  destruct (len s =? 0); [discriminate | ].
  destruct (255 <? len s); [discriminate | ].
  destruct (IsDomainName_loop (Fqdn s) "." false 0 0) as [[n b] | ] eqn:H;
    [ | discriminate].
  simpl. intros ->.
  apply IsDomainName_loop_letter in H. destruct H as [H | H]; [discriminate | ].
  unfold Fqdn in H. destruct (IsFqdn s); [exact H | ].
  rewrite has_letter_app in H. simpl in H. rewrite orb_false_r in H. exact H.
Qed.

Lemma IsDomainName_needs_letter_witness : has_letter "miek.nl." = true.
Proof. apply (IsDomainName_needs_letter "miek.nl."). reflexivity. Defined.

Example IsDomainName_digits : snd (IsDomainName "127.0.0.1") = false.
Proof. reflexivity. Qed.

Lemma IsDomainName_loop_labels (s : string) : forall last ok partlen labels n b,
  0 <= partlen -> 0 <= labels ->
  2 * labels + partlen + len s <= 256 ->
  IsDomainName_loop s last ok partlen labels = Some (n, b) ->
  0 <= n /\ 2 * n <= 2 * labels + partlen + len s.
Proof.
  induction s as [| c s IH]; intros last ok partlen labels n b Hp Hl Hb H;
    simpl in H.
  - inversion H; subst. unfold len. simpl. lia.
  - assert (Hlen : len (String c s) = len s + 1)
      by (unfold len; simpl String.length; lia).
    rewrite Hlen in *.
    assert (Hpos : 0 <= len s) by (unfold len; lia).
    repeat match type of H with
           | (if ?b then _ else _) = _ => destruct b eqn:?
           end;
      try discriminate;
      try (apply IH in H; lia).
    match goal with
    | Hc : (63 <? partlen) || (partlen =? 0) = false |- _ =>
        apply orb_false_elim in Hc; destruct Hc as [_ Hz]
    end.
    apply Z.eqb_neq in Hz.
    assert (Hw : uint8 (labels + 1) = labels + 1)
      by (unfold uint8; apply Z.mod_small; lia).
    rewrite Hw in H. apply IH in H; lia.
Qed.

(** X7. The count of labels that [IsDomainName] returns is at most 128:
    a name has at most 255 bytes and every label takes two at least, so
    that the [uint8] counter never wraps around. *)
Theorem IsDomainName_labels (s : string) :
  0 <= fst (IsDomainName s) <= 128.
Proof.
  unfold IsDomainName.
  destruct (len s =? 0); [simpl; lia | ].
  destruct (255 <? len s) eqn:Hlen; [simpl; lia | ].
  apply Z.ltb_ge in Hlen.
  destruct (IsDomainName_loop (Fqdn s) "." false 0 0) as [[n b] | ] eqn:H;
    [ | simpl; lia].
  assert (Hf : len (Fqdn s) <= 256).
  { unfold Fqdn. destruct (IsFqdn s); [lia | ].
    rewrite len_app. unfold len at 2. simpl. lia. }
  apply IsDomainName_loop_labels in H; simpl; lia.
Qed.

(** X8. A closing dot makes no difference to [IsDomainName]: a name that
    is not fully qualified, of less than 255 bytes, is judged as the name
    with a dot appended. *)
Theorem IsDomainName_closing_dot (s : string) :
  s <> EmptyString -> IsFqdn s = false -> len s < 255 ->
  IsDomainName (s ++ ".") = IsDomainName s.
Proof.
  intros Hne Hq Hlen. unfold IsDomainName, Fqdn.
  rewrite IsFqdn_dot, Hq, len_app.
  assert (H1 : len "." = 1) by reflexivity. rewrite H1.
  assert (H0 : 0 < len s).
  { destruct s; [contradiction | ]. unfold len. simpl String.length. lia. }
  destruct (len s + 1 =? 0) eqn:Ha; [apply Z.eqb_eq in Ha; lia | ].
  destruct (len s =? 0) eqn:Hb; [apply Z.eqb_eq in Hb; lia | ].
  destruct (255 <? len s + 1) eqn:Hc; [apply Z.ltb_lt in Hc; lia | ].
  destruct (255 <? len s) eqn:Hd; [apply Z.ltb_lt in Hd; lia | ].
  reflexivity.
Qed.

Lemma IsDomainName_closing_dot_witness :
  IsDomainName ("miek.nl" ++ ".") = IsDomainName "miek.nl".
Proof.
  apply (IsDomainName_closing_dot "miek.nl"); [discriminate | reflexivity | ].
  vm_compute. reflexivity.
Defined.

Lemma Fqdn_cons (c : ascii) (r : string) : exists r', Fqdn (String c r) = String c r'.
Proof.
  unfold Fqdn. destruct (IsFqdn (String c r)); simpl; eauto.
Qed.

(** X9. A name that begins with a dot or with a dash is not a domain name
    for [IsDomainName]; the root name "." is among them, so that the
    parser refuses it as an owner. *)
Theorem IsDomainName_leading_dot (r : string) :
  snd (IsDomainName (String "." r)) = false /\
  snd (IsDomainName (String "-" r)) = false /\
  (forall E file,
     ParseZone E (". NS a." ++ nl) file
     = [Token_Error file "bad owner name" (mkLex "." EmptyString _OWNER 1 2)]).
Proof.
  split; [ | split].
  - unfold IsDomainName.
    destruct (len _ =? 0); [reflexivity | ].
    destruct (255 <? _); [reflexivity | ].
    destruct (Fqdn_cons "." r) as [r' ->]. reflexivity.
  - unfold IsDomainName.
    destruct (len _ =? 0); [reflexivity | ].
    destruct (255 <? _); [reflexivity | ].
    destruct (Fqdn_cons "-" r) as [r' ->]. reflexivity.
  - intros E file. reflexivity.
Qed.

(** ** zoneMatch *)

Lemma get_nth_error (s : string) : forall n,
  String.get n s = nth_error (list_ascii_of_string s) n.
Proof.
  induction s as [| c s IH]; intros [| n]; simpl; auto.
Qed.

Lemma length_chars (s : string) :
  List.length (list_ascii_of_string s) = String.length s.
Proof. induction s; simpl; auto. Qed.

Lemma chars_app (a b : string) :
  list_ascii_of_string (a ++ b)
  = (list_ascii_of_string a ++ list_ascii_of_string b)%list.
Proof. induction a as [| c a IH]; simpl; [reflexivity | rewrite IH; reflexivity]. Qed.

(** [s[len(s)-1-i]] is the [i]-th character from the end. *)
Lemma index_from_end (s : string) (i : nat) (x : ascii) :
  nth_error (rev (list_ascii_of_string s)) i = Some x ->
  index s (len s - 1 - Z.of_nat i) = Some x.
Proof.
  intros H.
  assert (Hi : (i < String.length s)%nat).
  { rewrite <- length_chars, <- length_rev. apply nth_error_Some. congruence. }
  unfold index, len.
  destruct (Z.of_nat (String.length s) - 1 - Z.of_nat i <? 0) eqn:H1;
    [apply Z.ltb_lt in H1; lia | ].
  destruct (Z.of_nat (String.length s)
            <=? Z.of_nat (String.length s) - 1 - Z.of_nat i) eqn:H2;
    [apply Z.leb_le in H2; lia | ].
  simpl orb. cbv iota. rewrite get_nth_error.
  replace (Z.to_nat (Z.of_nat (String.length s) - 1 - Z.of_nat i))
    with (String.length s - 1 - i)%nat by lia.
  rewrite nth_error_rev, length_chars in H.
  assert (Hb : (i <? String.length s)%nat = true)
    by (apply Nat.ltb_lt; exact Hi).
  rewrite Hb in H.
  replace (String.length s - 1 - i)%nat with (String.length s - S i)%nat by lia.
  exact H.
Qed.

Lemma skipn_nth_error {A} (l : list A) (i : nat) (x : A) (u : list A) :
  skipn i l = x :: u -> nth_error l i = Some x /\ skipn (S i) l = u.
Proof.
  revert l. induction i as [| i IH]; intros l H.
  - simpl in H. subst l. auto.
  - destruct l as [| y l]; [discriminate | ]. simpl in H. apply IH in H. exact H.
Qed.

Lemma skipn_length_cons {A} (l : list A) (i : nat) (x : A) (u : list A) :
  skipn i l = x :: u -> List.length l = (i + S (List.length u))%nat.
Proof.
  intros H. assert (Hl := length_skipn i l). rewrite H in Hl. simpl in Hl.
  assert (i < List.length l)%nat; [ | lia].
  destruct (Nat.lt_ge_cases i (List.length l)) as [Hlt | Hge]; [exact Hlt | ].
  rewrite skipn_all2 in H by exact Hge. discriminate.
Qed.

(** The loop, from the [i]-th characters from the ends on. *)
Lemma zoneMatch_loop_agree (p z : string) (u : list ascii) :
  forall (v : list ascii) (i fuel : nat) (x y : ascii),
  skipn i (rev (list_ascii_of_string p)) = x :: u ->
  skipn i (rev (list_ascii_of_string z)) = y :: v ->
  (List.length u < fuel)%nat ->
  zoneMatch_loop fuel p z (Z.of_nat i)
  = Some (Returns (agree (x :: u) (y :: v))).
Proof.
  induction u as [| x' u IH]; intros v i fuel x y Hp Hz Hfuel;
    (destruct fuel as [| fuel]; [lia | ]);
    pose proof (skipn_length_cons _ _ _ _ Hp) as Hlp;
    pose proof (skipn_length_cons _ _ _ _ Hz) as Hlz;
    rewrite length_rev, length_chars in Hlp, Hlz;
    apply skipn_nth_error in Hp; destruct Hp as [Hx Hp];
    apply skipn_nth_error in Hz; destruct Hz as [Hy Hz];
    cbn [zoneMatch_loop];
    rewrite (index_from_end p i x Hx), (index_from_end z i y Hy);
    cbn zeta; simpl agree;
    (destruct (Ascii.eqb x y); simpl; [ | reflexivity]).
  - destruct (len p - 1 - (Z.of_nat i + 1) <? 0) eqn:H1; [ | exfalso].
    + simpl. destruct v; reflexivity.
    + apply Z.ltb_ge in H1. unfold len in H1. simpl in Hlp. lia.
  - destruct (len p - 1 - (Z.of_nat i + 1) <? 0) eqn:H1.
    + apply Z.ltb_lt in H1. unfold len in H1. simpl in Hlp. lia.
    + simpl orb. destruct v as [| y' v].
      * destruct (len z - 1 - (Z.of_nat i + 1) <? 0) eqn:H2; [reflexivity | ].
        apply Z.ltb_ge in H2. unfold len in H2. simpl in Hlz. lia.
      * destruct (len z - 1 - (Z.of_nat i + 1) <? 0) eqn:H2.
        -- apply Z.ltb_lt in H2. unfold len in H2. simpl in Hlz. lia.
        -- replace (Z.of_nat i + 1) with (Z.of_nat (S i)) by lia.
           apply IH with (v := v); [exact Hp | exact Hz | simpl in Hfuel; lia].
Qed.

Lemma agree_prefix (u : list ascii) : forall v,
  agree u v = true <->
  (exists w, v = (u ++ w)%list) \/ (exists w, u = (v ++ w)%list).
Proof.
  induction u as [| x u IH]; intros v.
  - simpl. split; [intros _; left; exists v; reflexivity | reflexivity].
  - destruct v as [| y v].
    + simpl. split; [intros _; right; eexists; reflexivity | reflexivity].
    + simpl. destruct (Ascii.eqb_spec x y) as [-> | Hxy]; simpl.
      * rewrite IH. split; intros [[w H] | [w H]];
          solve [left; exists w; congruence | right; exists w; congruence].
      * split; [discriminate | ].
        intros [[w H] | [w H]]; inversion H; congruence.
Qed.

Lemma ends_with_chars (a b : string) :
  ends_with a b <->
  exists w, rev (list_ascii_of_string a)
            = (rev (list_ascii_of_string b) ++ w)%list.
Proof.
  unfold ends_with. split.
  - intros [w ->]. rewrite chars_app, rev_app_distr. eauto.
  - intros [w H]. exists (string_of_list_ascii (rev w)).
    apply (f_equal (@rev ascii)) in H.
    rewrite rev_app_distr, !rev_involutive in H.
    rewrite <- (string_of_list_ascii_of_string a), H.
    rewrite <- (list_ascii_of_string_of_list_ascii (rev w)) at 1.
    rewrite <- chars_app, string_of_list_ascii_of_string. reflexivity.
Qed.

Lemma rev_chars_cons (s : string) :
  s <> EmptyString ->
  exists x u, rev (list_ascii_of_string s) = x :: u /\
              (List.length u < String.length s)%nat.
Proof.
  intros Hne.
  destruct (rev (list_ascii_of_string s)) as [| x u] eqn:H.
  - apply (f_equal (@List.length ascii)) in H.
    rewrite length_rev, length_chars in H. destruct s; [contradiction | discriminate].
  - exists x, u. split; [reflexivity | ].
    apply (f_equal (@List.length ascii)) in H.
    rewrite length_rev, length_chars in H. simpl in H. lia.
Qed.

Lemma Fqdn_nonempty (s : string) : Fqdn s <> EmptyString.
Proof.
  unfold Fqdn. destruct (IsFqdn s) eqn:Hq.
  - intros ->. discriminate.
  - destruct s; discriminate.
Qed.

(** X10. [zoneMatch] always returns, it never indexes out of range; an
    empty pattern matches nothing, and otherwise the result is true
    exactly when, both names being closed with a dot and an empty zone
    standing for ".", one of the two ends with the other: the names are
    compared from their ends, as far as the shorter goes. *)
Theorem zoneMatch_returns (pattern zone : string) :
  let p := Fqdn pattern in
  let z := Fqdn (if len zone =? 0 then "." else zone) in
  exists b, zoneMatch pattern zone = Some (Returns b) /\
    (b = true <->
     pattern <> EmptyString /\ (ends_with p z \/ ends_with z p)).
Proof.
  intros p z. unfold zoneMatch.
  destruct (len pattern =? 0) eqn:Hlen.
  - exists false. split; [reflexivity | ].
    split; [discriminate | ]. intros [Hne _].
    destruct pattern; [contradiction | ].
    apply Z.eqb_eq in Hlen. unfold len in Hlen. simpl in Hlen. lia.
  - fold p z.
    destruct (rev_chars_cons p (Fqdn_nonempty pattern)) as (x & u & Hp & Hu).
    destruct (rev_chars_cons z (Fqdn_nonempty _)) as (y & v & Hz & _).
    exists (agree (x :: u) (y :: v)). split.
    + apply (zoneMatch_loop_agree p z u v 0 (String.length p) x y);
        [exact Hp | exact Hz | exact Hu].
    + rewrite agree_prefix, <- Hp, <- Hz, <- !ends_with_chars.
      assert (Hne : pattern <> EmptyString)
        by (intros ->; discriminate).
      tauto.
Qed.

(** The match is by bytes, not by labels, and goes both ways. *)
Example zoneMatch_both_ways :
  zoneMatch "nl" "miek.nl." = Some (Returns true) /\
  zoneMatch "miek.nl." "nl" = Some (Returns true) /\
  zoneMatch "ek.nl" "miek.nl" = Some (Returns true) /\
  zoneMatch "miek.nl" "miek.com" = Some (Returns false).
Proof. repeat split. Qed.

(** ** More on the lexer *)

Lemma zone_value_directive (s : string) : zone_value (directive s) = true.
Proof.
  unfold directive.
  repeat match goal with |- context [if ?b then _ else _] => destruct b end;
    reflexivity.
Qed.

(** A token that the turn sends is regular. *)
Lemma regular_sent (l : lex) (v : tokval) (t : string) :
  err l = EmptyString -> nonempty t = true -> zone_value v = true ->
  regular (set_tok l v t) = true.
Proof.
  intros He Ht Hv. unfold regular. simpl. rewrite He, Ht, Hv. reflexivity.
Qed.

Ltac turn_regular :=
  repeat match goal with
         | |- match ?t with Go _ _ => _ | Halt _ => _ end =>
             let u := head_test t in destruct u eqn:?; cbn
         end;
  repeat match goal with
         | |- _ /\ _ => split
         | |- Forall _ (_ :: _) => constructor
         | |- Forall _ [] => constructor
         | |- context [if ?b then _ else _] => destruct b eqn:?
         end;
  try assumption; try reflexivity;
  try (apply regular_sent;
       solve [assumption | reflexivity | apply zone_value_directive]).

(** In one turn the lexer sends regular tokens and goes on, or it sends
    the error of a closing brace that closes nothing and returns. *)
Lemma zlexer_turn_regular (E : Env) (s : zl) (x : ascii) :
  err (zl_l s) = EmptyString ->
  match zlexer_turn E s x with
  | Go s2 out =>
      Forall (fun t => regular t = true) out /\ err (zl_l s2) = EmptyString
  | Halt out =>
      Ascii.eqb x ")" = true /\
      exists t, out = [t] /\ err t = "Extra closing brace"
  end.
Proof.
  destruct s as [l str quote escape space commt rrtype owner brace].
  unfold zlexer_turn, send, add, dq, set_l, set_str, set_quote,
    set_escape, set_space, set_commt, set_rrtype, set_owner, set_brace.
  cbn. intros He.
  destruct (nonempty str) eqn:Hstr; turn_regular; eauto.
Qed.

Lemma nonempty_len_pos (s : string) : (0 <? len s) = nonempty s.
Proof.
  destruct s; unfold len; simpl String.length; [reflexivity | ].
  apply Z.ltb_lt. lia.
Qed.

Lemma at_pos_err (s : zl) (ln col : Z) :
  err (zl_l (at_pos s ln col)) = err (zl_l s).
Proof. destruct s; reflexivity. Qed.

Lemma lacks_cons_false (x y : ascii) (r : string) :
  Ascii.eqb y x = true -> lacks x (String y r) = false.
Proof. intros H. simpl. rewrite H. reflexivity. Qed.

(** The tokens of a run: regular ones, and then at most the error of a
    closing brace, which the input holds. *)
Lemma zlexer_loop_shape (E : Env) (input : string) : forall s ln col,
  err (zl_l s) = EmptyString ->
  exists regs tail,
    map snd (zlexer_loop E s ln col input) = (regs ++ tail)%list /\
    Forall (fun t => regular t = true) regs /\
    (tail = [] \/
     lacks ")" input = false /\
     exists t, tail = [t] /\ err t = "Extra closing brace").
Proof.
  induction input as [| x rest IH]; intros s ln col He.
  - simpl. rewrite nonempty_len_pos.
    destruct (nonempty (zl_str s)) eqn:Hs.
    + exists [set_tok (zl_l s) _STRING (zl_str s)], [].
      split; [reflexivity | split; [ | left; reflexivity]].
      constructor; [ | constructor]. apply regular_sent; auto.
    + exists [], []. split; [reflexivity | split; [constructor | left; reflexivity]].
  - assert (Hturn := zlexer_turn_regular E (at_pos s ln col) x).
    rewrite at_pos_err in Hturn. specialize (Hturn He).
    cbn [zlexer_loop].
    destruct (Ascii.eqb x "010");
      (destruct (zlexer_turn E (at_pos s ln col) x) as [s2 out | out];
       [ destruct Hturn as [Hout He2];
         match goal with
         | |- context [zlexer_loop E s2 ?a ?b rest] =>
             destruct (IH s2 a b He2) as (regs & tail & Heq & Hregs & Htail)
         end;
         exists (out ++ regs)%list, tail;
         rewrite map_app, map_snd_tag, Heq, app_assoc;
         split; [reflexivity | split; [apply Forall_app; auto | ]];
         destruct Htail as [Ht | [Hl Ht]]; [left; exact Ht | right];
         split; [simpl; rewrite Hl; apply andb_false_r | exact Ht]
       | destruct Hturn as [Hx Ht];
         exists [], out; rewrite map_snd_tag;
         split; [reflexivity | split; [constructor | right]];
         split; [apply lacks_cons_false; exact Hx | exact Ht] ]).
Qed.

Lemma lex_error_is_last_regular (regs tail : list lex) :
  Forall (fun t => regular t = true) regs ->
  (tail = [] \/ exists t, tail = [t]) ->
  lex_error_is_last (regs ++ tail) = true.
Proof.
  intros Hregs Htail. induction Hregs as [| t regs Ht _ IH]; simpl.
  - destruct Htail as [-> | [t ->]]; simpl; [reflexivity | ].
    rewrite orb_true_r. reflexivity.
  - rewrite IH. unfold regular in Ht.
    destruct (nonempty (err t)); [discriminate | reflexivity].
Qed.

(** X11. The lexer stops at its first error: a token with an error text
    is the last token of the stream, the text is "Extra closing brace",
    and an input without a closing brace gives no such token. *)
Theorem zlexer_error_is_last (E : Env) (input : string) :
  lex_error_is_last (zlexer E input) = true /\
  Forall (fun t => err t = EmptyString \/ err t = "Extra closing brace")
    (zlexer E input) /\
  (lacks ")" input = true ->
   Forall (fun t => err t = EmptyString) (zlexer E input)).
Proof.
  unfold zlexer, zlexer_trace.
  destruct (zlexer_loop_shape E input zl0 1 1 eq_refl)
    as (regs & tail & -> & Hregs & Htail).
  assert (Hclean : Forall (fun t => err t = EmptyString) regs).
  { eapply Forall_impl; [ | exact Hregs]. intros t Ht. unfold regular in Ht.
    destruct (err t); [reflexivity | discriminate]. }
  split; [ | split].
  - apply lex_error_is_last_regular; [exact Hregs | ].
    destruct Htail as [H | (_ & t & H & _)]; eauto.
  - apply Forall_app. split.
    + eapply Forall_impl; [ | exact Hclean]. auto.
    + destruct Htail as [-> | (_ & t & -> & Ht)];
        [constructor | constructor; [right; exact Ht | constructor]].
  - intros Hl. destruct Htail as [-> | [Hf _]]; [ | congruence].
    rewrite app_nil_r. exact Hclean.
Qed.

Lemma zlexer_error_is_last_witness :
  Forall (fun t => err t = EmptyString)
    (zlexer (ex_env no_file) ("a. NS ( b." ++ nl)).
Proof.
  apply (proj2 (proj2 (zlexer_error_is_last (ex_env no_file)
                         ("a. NS ( b." ++ nl)))).
  reflexivity.
Defined.

(** The token that reports the error of the lexer is another matter: it
    has the value and the text that [l] was left with, which is [_EOF]
    and the empty text when nothing was sent before. *)
Example zlexer_error_token :
  forall E,
  zlexer E ")" = [mkLex EmptyString "Extra closing brace" _EOF 1 1].
Proof. intros E. reflexivity. Qed.

(** X12. A token of the lexer that carries no error text has a text that
    is not empty and a value of one of the kinds of the zone file: among
    the tokens without an error text there is no [_EOF], which a reader
    takes for the end of the channel, and no [_KEY].  (Nothing is said of
    the token that carries an error text, see [zlexer_error_token].) *)
Theorem zlexer_tokens_regular (E : Env) (input : string) :
  Forall (fun t => err t = EmptyString -> regular t = true) (zlexer E input).
Proof.
  unfold zlexer, zlexer_trace.
  destruct (zlexer_loop_shape E input zl0 1 1 eq_refl)
    as (regs & tail & -> & Hregs & Htail).
  apply Forall_app. split.
  - eapply Forall_impl; [ | exact Hregs]. auto.
  - destruct Htail as [-> | (_ & t & -> & Ht)];
      [constructor | constructor; [ | constructor]].
    rewrite Ht. discriminate.
Qed.

(** The place of a token. *)
Lemma zlexer_turn_place (E : Env) (s : zl) (x : ascii) :
  let here t := line t = line (zl_l s) /\ column t = column (zl_l s) in
  match zlexer_turn E s x with
  | Go s2 out => Forall here out /\ here (zl_l s2)
  | Halt out => Forall here out
  end.
Proof.
  destruct s as [l str quote escape space commt rrtype owner brace].
  unfold zlexer_turn, send, add, dq, set_l, set_str, set_quote,
    set_escape, set_space, set_commt, set_rrtype, set_owner, set_brace.
  cbn.
  repeat match goal with
         | |- match ?t with Go _ _ => _ | Halt _ => _ end =>
             let u := head_test t in destruct u eqn:?; cbn
         end;
  repeat match goal with
         | |- _ /\ _ => split
         | |- Forall _ (_ :: _) => constructor
         | |- Forall _ [] => constructor
         | |- context [if ?b then _ else _] => destruct b eqn:?
         end;
  reflexivity.
Qed.

Lemma lines_from_le (ts : list lex) (lo lo' : Z) :
  lo <= lo' -> lines_from lo' ts = true -> lines_from lo ts = true.
Proof.
  destruct ts as [| t ts]; [reflexivity | ]. simpl. intros Hle H.
  apply andb_prop in H. destruct H as [H1 H2]. rewrite H2.
  apply Z.leb_le in H1. rewrite andb_true_r. apply Z.leb_le. lia.
Qed.

Lemma lines_from_app (ln : Z) (a b : list lex) :
  Forall (fun t => line t = ln) a ->
  lines_from ln b = true -> lines_from ln (a ++ b) = true.
Proof.
  intros Ha Hb. induction Ha as [| t a Ht _ IH]; [exact Hb | ].
  simpl. rewrite Ht, Z.leb_refl. exact IH.
Qed.

Lemma at_pos_place (s : zl) (ln col : Z) :
  line (zl_l (at_pos s ln col)) = ln /\
  column (zl_l (at_pos s ln col)) = col /\
  zl_str (at_pos s ln col) = zl_str s.
Proof. destruct s; repeat split. Qed.

(** The tokens of a run that is at line [ln], column [col]: the lines
    never decrease from [lo] on and the columns are counted from 1, if so
    is the place of a word that is held. *)
Lemma zlexer_loop_places (E : Env) (input : string) : forall s ln col lo,
  1 <= col -> lo <= ln ->
  (nonempty (zl_str s) = true ->
   lo <= line (zl_l s) /\ 1 <= column (zl_l s)) ->
  lines_from lo (map snd (zlexer_loop E s ln col input)) = true /\
  Forall (fun t => 1 <= column t) (map snd (zlexer_loop E s ln col input)).
Proof.
  induction input as [| x rest IH]; intros s ln col lo Hcol Hline Hheld.
  - simpl. rewrite nonempty_len_pos.
    destruct (nonempty (zl_str s)); simpl;
      [ | split; [reflexivity | constructor]].
    destruct (Hheld eq_refl) as [H1 H2].
    split; [rewrite andb_true_r; apply Z.leb_le; exact H1 | ].
    constructor; [simpl; exact H2 | constructor].
  - destruct (at_pos_place s ln col) as (Hl & Hc & _).
    assert (Hturn := zlexer_turn_place E (at_pos s ln col) x).
    cbv zeta in Hturn. rewrite Hl, Hc in Hturn.
    cbn [zlexer_loop].
    assert (Hgo : forall s2 out ln' col',
      Forall (fun t => line t = ln /\ column t = col) out ->
      line (zl_l s2) = ln /\ column (zl_l s2) = col ->
      ln <= ln' -> 1 <= col' ->
      lines_from lo
        (map snd (tag (zl_brace (at_pos s ln col)) out
                  ++ zlexer_loop E s2 ln' col' rest)) = true /\
      Forall (fun t => 1 <= column t)
        (map snd (tag (zl_brace (at_pos s ln col)) out
                  ++ zlexer_loop E s2 ln' col' rest))).
    { intros s2 out ln' col' Hout [Hl2 Hc2] Hln' Hcol'.
      rewrite map_app, map_snd_tag.
      destruct (IH s2 ln' col' ln Hcol' Hln') as [IH1 IH2];
        [intros _; lia | ].
      split.
      - apply lines_from_le with (lo' := ln); [exact Hline | ].
        apply lines_from_app; [ | exact IH1].
        eapply Forall_impl; [ | exact Hout]. intros t [Ht _]; exact Ht.
      - apply Forall_app. split; [ | exact IH2].
        eapply Forall_impl; [ | exact Hout]. intros t [_ Ht]; lia. }
    assert (Hhalt : forall out,
      Forall (fun t => line t = ln /\ column t = col) out ->
      lines_from lo
        (map snd (tag (zl_brace (at_pos s ln col)) out)) = true /\
      Forall (fun t => 1 <= column t)
        (map snd (tag (zl_brace (at_pos s ln col)) out))).
    { intros out Hout. rewrite map_snd_tag. split.
      - apply lines_from_le with (lo' := ln); [exact Hline | ].
        rewrite <- (app_nil_r out). apply lines_from_app; [ | reflexivity].
        eapply Forall_impl; [ | exact Hout]. intros t [Ht _]; exact Ht.
      - eapply Forall_impl; [ | exact Hout]. intros t [_ Ht]; lia. }
    destruct (Ascii.eqb x "010");
      (destruct (zlexer_turn E (at_pos s ln col) x) as [s2 out | out];
       [ destruct Hturn as [Hout Hs2]; apply Hgo; auto; lia
       | apply Hhalt; exact Hturn ]).
Qed.

Lemma lines_from_lower (ts : list lex) : forall lo,
  lines_from lo ts = true -> Forall (fun t => lo <= line t) ts.
Proof.
  induction ts as [| t ts IH]; intros lo H; [constructor | ].
  simpl in H. apply andb_prop in H. destruct H as [Ha Hb].
  apply Z.leb_le in Ha. constructor; [exact Ha | ].
  eapply Forall_impl; [ | apply (IH _ Hb)]. simpl. intros; lia.
Qed.

(** X13. The places of the tokens: in the stream of the lexer the lines
    never decrease from one token to the next, and lines and columns are
    counted from 1. *)
Theorem zlexer_places (E : Env) (input : string) :
  lines_from 1 (zlexer E input) = true /\
  Forall (fun t => 1 <= line t /\ 1 <= column t) (zlexer E input).
Proof.
  unfold zlexer, zlexer_trace.
  destruct (zlexer_loop_places E input zl0 1 1 1) as [H1 H2];
    [lia | lia | discriminate | ].
  split; [exact H1 | ].
  apply lines_from_lower in H1. rewrite Forall_forall in *.
  intros t Ht. split; auto.
Qed.

(** ** More on the parser *)

Section Variant.

Variable E : Env.
Variable h : RR_Header.
Variables o f : string.

Lemma rd_variant_Slurp (T : Z) (m : Rd RR) :
  rd_spec (fun r => type_code r = T) m ->
  rd_spec (fun r => type_code r = T) (Slurp f m).
Proof.
  intros Hm. unfold Slurp.
  apply (rd_bind (fun r => type_code r = T)); [exact Hm | intros r Hr].
  apply (rd_bind (fun _ => True)); [apply rd_slurpRemainder | intros _ _].
  apply rd_ret. exact Hr.
Qed.

(** The record that [setRR] returns is of the variant of the type code of
    the header. *)
Lemma rd_variant_setRR :
  rd_spec (fun r => type_code r = Rrtype h) (setRR E h o f).
Proof.
  unfold setRR.
  repeat match goal with
         | |- rd_spec _ (if ?b then _ else _) =>
             let Hb := fresh "Hb" in
             destruct b eqn:Hb; [apply Z.eqb_eq in Hb; rewrite Hb | clear Hb]
         end;
    try apply rd_variant_Slurp;
    try apply rd_fail;
    cbv beta delta [setA setAAAA setNS setMX setCNAME setSOA setSSHFP
                    setDNSKEY setRRSIG setNSEC setNSEC3 setDS setTXT];
    repeat rd_step.
Qed.

End Variant.

Lemma item_shape_error (E : Env) (e : ParseError) :
  item_shape E (mkToken None (Some e)).
Proof. exact I. Qed.

(** The loop goes on with the second invariant, and nothing sent. *)
Ltac keep_header_inv :=
  split;
  [ unfold header_inv, class_known in *; simpl;
    repeat match goal with |- _ /\ _ => split end;
    intuition (try discriminate; eauto)
  | constructor ].

Section Shape.

Variable E : Env.
Variable sub : string -> string -> list Token.
Variables (f : string) (include : Z).

Hypothesis sub_shape : forall r1 f1, Forall (item_shape E) (sub r1 f1).

Lemma parseZone_turn_shape st h defttl origin l c :
  header_inv E st h ->
  match parseZone_turn E sub f include st h defttl origin l c with
  | PGo st' h' _ _ _ out => header_inv E st' h' /\ Forall (item_shape E) out
  | PReturn out => Forall (item_shape E) out
  end.
Proof.
  intros Hinv.
  assert (Herr : forall msg l', Forall (item_shape E) [Token_Error f msg l']).
  { intros. constructor; [exact I | constructor]. }
  unfold parseZone_turn.
  destruct (nonempty (err l)); [apply Herr | ].
  destruct st;
    match goal with
    | |- context [setRR] =>
        destruct (setRR E h origin f c) as [[r | e] c1] eqn:Hs;
        [ | constructor; [exact I | constructor] ]
    | _ =>
        try (destruct (negb (tokval_beq _ _)); [apply Herr | ]);
        try (destruct (value l); try apply Herr);
        try (destruct (negb (snd _)); [apply Herr | ]);
        try (destruct (stringToTtl l f) as [e | ttl] eqn:Hs;
             [ unfold stringToTtl in Hs; destruct (Atoi (token l));
               inversion Hs; constructor; [exact I | constructor] | ]);
        try (destruct (Str_class E _) eqn:Hcl; [ | apply Herr]);
        try (destruct (Open E _); [ | apply Herr];
             destruct (7 <? include + 1); [apply Herr | ]);
        try (destruct (negb (IsFqdn _)));
        try solve [keep_header_inv];
        try solve [split; [destruct Hinv as [H0 H1]; split; simpl;
                           [exact H0 | discriminate]
                          | apply sub_shape]]
    end.
  destruct Hinv as [H0 H1].
  destruct (rd_setRR E h origin f _ _ _ Hs) as [_ Hk].
  destruct (rd_variant_setRR E h origin f _ _ _ Hs) as [_ Hv].
  specialize (Hk r eq_refl). specialize (Hv r eq_refl).
  unfold keeps_header in Hk.
  split; [split; simpl; [exact H0 | discriminate] | ].
  constructor; [ | constructor].
  unfold item_shape. simpl. rewrite Hk. auto.
Qed.

Lemma parseZone_loop_shape fuel : forall st h defttl origin c,
  header_inv E st h ->
  Forall (item_shape E)
    (parseZone_loop E sub f include fuel st h defttl origin c).
Proof.
  induction fuel as [| fuel IH]; intros st h defttl origin c Hinv; simpl;
    [constructor | ].
  destruct c as [| l c]; [constructor | ].
  pose proof (parseZone_turn_shape st h defttl origin l c Hinv) as Hturn.
  destruct (parseZone_turn E sub f include st h defttl origin l c)
    as [st' h' defttl' origin' c' out | out]; [ | exact Hturn].
  destruct Hturn as (Hinv' & Hout).
  apply Forall_app. split; [exact Hout | apply IH; exact Hinv'].
Qed.

End Shape.

Lemma parseZone_shape E depth : forall r f include,
  Forall (item_shape E) (parseZone E depth r f include).
Proof.
  induction depth as [| depth IH]; intros r f include;
    rewrite parseZone_unfold; apply parseZone_loop_shape; auto;
    split; solve [reflexivity | discriminate].
Qed.

(** X14. Every RR that [ParseZone] emits is of the variant that the type
    code of its header names: an A record for [TypeA], an MX record for
    [TypeMX], and so on for the 13 types that [setRR] reads. *)
Theorem ParseZone_variants (E : Env) (r file : string) :
  Forall variant_item (ParseZone E r file).
Proof.
  unfold ParseZone.
  eapply Forall_impl; [ | apply parseZone_shape].
  intros t. unfold item_shape, variant_item.
  destruct (tok_RR t), (tok_Error t); tauto.
Qed.

(** X15. Every RR that [ParseZone] emits has the class IN or a class of
    the table [Str_class], and its [Rdlength] is 0: the parser never
    fills it in. *)
Theorem ParseZone_headers (E : Env) (r file : string) :
  Forall (header_item E) (ParseZone E r file).
Proof.
  unfold ParseZone.
  eapply Forall_impl; [ | apply parseZone_shape].
  intros t. unfold item_shape, header_item.
  destruct (tok_RR t), (tok_Error t); tauto.
Qed.

(** X16. Every item of the stream is an RR or an error and never both, so
    that [ReadRR] returns an RR, or an error, or neither, and neither only
    when the stream is empty. *)
Theorem ReadRR_one_of (E : Env) (q filename : string) :
  Forall one_of (ParseZone E q filename) /\
  match ReadRR E q filename with
  | (Some _, None) | (None, Some _) => ParseZone E q filename <> []
  | (None, None) => ParseZone E q filename = []
  | (Some _, Some _) => False
  end.
Proof.
  assert (H : Forall one_of (ParseZone E q filename)).
  { unfold ParseZone. eapply Forall_impl; [ | apply parseZone_shape].
    intros t. unfold item_shape, one_of.
    destruct (tok_RR t), (tok_Error t); tauto. }
  split; [exact H | ].
  unfold ReadRR. destruct (ParseZone E q filename) as [| t ts]; [reflexivity | ].
  inversion H as [| t' ts' Ht _]; subst. unfold one_of in Ht.
  destruct (tok_RR t), (tok_Error t); try contradiction; discriminate.
Qed.

(** An input of blank lines and comments gives neither an RR nor an
    error. *)
Example NewRR_neither :
  forall E,
  NewRR E (nl ++ "; nothing" ++ nl) = Returns (None, None).
Proof. intros E. reflexivity. Qed.

Lemma index_last_app (s : string) (c : ascii) :
  index (s ++ String c EmptyString)
        (len (s ++ String c EmptyString) - 1) = Some c.
Proof.
  destruct s as [| d s]; [reflexivity | ].
  simpl append. rewrite index_last, last_char_app. reflexivity.
Qed.

(** X17. [NewRR] adds the closing newline that is missing: on a string
    that is not empty and does not end with a newline, it returns what it
    returns on the string with a newline appended. *)
Theorem NewRR_closing_newline (E : Env) (s : string) (x : ascii) :
  index s (len s - 1) = Some x -> x <> "010"%char ->
  NewRR E (s ++ nl) = NewRR E s.
Proof.
  intros Hx Hne. unfold NewRR, nl. rewrite index_last_app, Hx.
  destruct (Ascii.eqb_spec x "010") as [Heq | _]; [contradiction | ].
  reflexivity.
Qed.

Lemma NewRR_closing_newline_witness :
  NewRR (ex_env no_file) ("a. NS b." ++ nl) = NewRR (ex_env no_file) "a. NS b.".
Proof.
  apply (NewRR_closing_newline (ex_env no_file) "a. NS b." "."%char);
    [reflexivity | discriminate].
Defined.

(** *** The tokens that the readers take and report *)

Section ReadersIn.

Variables C U : lex -> Prop.
Hypothesis C_U : forall l, C l -> U l.
Hypothesis U_zero : U lex0.

Lemma rd_in_ret {A} (Q : A -> Prop) (a : A) : Q a -> rd_in C U Q (ret a).
Proof.
  intros H c r c' Hc Heq. inversion Heq; subst.
  repeat split; [exact Hc | discriminate | ].
  intros a' Ha. inversion Ha; subst. exact H.
Qed.

Lemma rd_in_fail {A} (Q : A -> Prop) (f msg : string) (l : lex) :
  U l -> rd_in C U Q (fail f msg l).
Proof.
  intros H c r c' Hc Heq. inversion Heq; subst.
  repeat split; [exact Hc | | discriminate].
  intros e He. inversion He; subst. exact H.
Qed.

Lemma rd_in_bind {A B} (Q : A -> Prop) (P : B -> Prop)
    (m : Rd A) (k : A -> Rd B) :
  rd_in C U Q m -> (forall a, Q a -> rd_in C U P (k a)) ->
  rd_in C U P (bind m k).
Proof.
  intros Hm Hk c r c' Hc Heq. unfold bind in Heq.
  destruct (m c) as [[a | e] c1] eqn:Hmc.
  - destruct (Hm _ _ _ Hc Hmc) as (Hc1 & _ & Ha).
    exact (Hk a (Ha a eq_refl) _ _ _ Hc1 Heq).
  - inversion Heq; subst. destruct (Hm _ _ _ Hc Hmc) as (Hc1 & He & _).
    repeat split; [exact Hc1 | | discriminate].
    intros e' He'. inversion He'; subst. auto.
Qed.

Lemma rd_in_recv : rd_in C U U recv.
Proof.
  intros c r c' Hc Heq.
  destruct c as [| l c]; inversion Heq; subst;
    (repeat split; [ | discriminate | ]).
  - constructor.
  - intros a Ha. inversion Ha; subst. exact U_zero.
  - inversion Hc; assumption.
  - intros a Ha. inversion Ha; subst. inversion Hc; auto.
Qed.

Lemma rd_in_atoi (f msg : string) (l : lex) :
  U l -> rd_in C U (fun _ => True) (atoi f msg l).
Proof.
  intros H. unfold atoi.
  destruct (Atoi (token l)); [apply rd_in_ret; exact I | apply rd_in_fail; exact H].
Qed.

Lemma rd_in_domain (f msg o : string) (l : lex) :
  U l -> rd_in C U (fun _ => True) (domain f msg o l).
Proof.
  intros H. unfold domain.
  destruct (negb _); [apply rd_in_fail; exact H | apply rd_in_ret; exact I].
Qed.

Lemma rd_in_date (E : Env) (f msg : string) (l : lex) :
  U l -> rd_in C U (fun _ => True) (date E f msg l).
Proof.
  intros H. unfold date.
  destruct (dateToTime E (token l));
    [apply rd_in_ret; exact I | apply rd_in_fail; exact H].
Qed.

Lemma rd_in_until_eol {A} (body : lex -> A -> res A) :
  (forall l a e, body l a = Err e -> pe_lex e = l) ->
  forall acc, rd_in C U (fun _ => True) (until_eol body acc).
Proof.
  intros Hbody acc c. revert acc.
  induction c as [| l c IH]; intros acc r c' Hc Heq; simpl in Heq.
  - inversion Heq; subst. repeat split; [constructor | discriminate].
  - inversion Hc as [| l' c0 Hl Hc0]; subst.
    assert (Hend : (r, c') = (Ok acc, c) ->
              Forall C c' /\ (forall e, r = Err e -> U (pe_lex e)) /\
              (forall a, r = Ok a -> True)).
    { intros H. inversion H; subst. repeat split; [exact Hc0 | discriminate]. }
    assert (Hmore : match body l acc with
                    | Ok acc' => until_eol body acc' c
                    | Err e => (Err e, c)
                    end = (r, c') ->
              Forall C c' /\ (forall e, r = Err e -> U (pe_lex e)) /\
              (forall a, r = Ok a -> True)).
    { destruct (body l acc) as [acc' | e] eqn:Hb; intros H.
      - exact (IH acc' _ _ Hc0 H).
      - inversion H; subst. repeat split; [exact Hc0 | ].
        intros e' He'. inversion He'; subst.
        rewrite (Hbody _ _ _ Hb). auto. }
    destruct (value l); auto.
Qed.

Lemma chunk_error (f msg : string) (blanks : bool) (l : lex) (s : string)
    (e : ParseError) :
  chunk f msg blanks l s = Err e -> pe_lex e = l.
Proof.
  unfold chunk. destruct (value l); intros H; inversion H; reflexivity.
Qed.

Lemma bitmap_error (E : Env) (f nonrr garbage : string) (l : lex)
    (m : list Z) (e : ParseError) :
  bitmap E f nonrr garbage l m = Err e -> pe_lex e = l.
Proof.
  unfold bitmap. destruct (value l); try destruct (Str_rr E _);
    intros H; inversion H; reflexivity.
Qed.

Lemma rd_in_chunks (f msg : string) (blanks : bool) (acc : string) :
  rd_in C U (fun _ => True) (until_eol (chunk f msg blanks) acc).
Proof. apply rd_in_until_eol. apply chunk_error. Qed.

Lemma rd_in_bitmap (E : Env) (f nonrr garbage : string) (acc : list Z) :
  rd_in C U (fun _ => True) (until_eol (bitmap E f nonrr garbage) acc).
Proof. apply rd_in_until_eol. apply bitmap_error. Qed.

(** One step through a reader. *)
Ltac rd_in_step :=
  match goal with
  | |- rd_in _ _ _ (bind recv _) =>
      apply (rd_in_bind U); [apply rd_in_recv | intros ? ?]
  | |- rd_in _ _ _ (bind _ _) =>
      apply (rd_in_bind (fun _ => True));
      [ first [ apply rd_in_atoi | apply rd_in_domain | apply rd_in_date
              | apply rd_in_chunks | apply rd_in_bitmap ]; assumption
      | intros ? _ ]
  | |- rd_in _ _ _ (ret _) => apply rd_in_ret; exact I
  | |- rd_in _ _ _ (fail _ _ _) => apply rd_in_fail; assumption
  | |- rd_in _ _ _ (match ?x with _ => _ end) => destruct x
  end.

Lemma rd_in_slurpRemainder (f : string) :
  rd_in C U (fun _ => True) (slurpRemainder f).
Proof. unfold slurpRemainder. repeat rd_in_step. Qed.

Lemma rd_in_Slurp (f : string) (m : Rd RR) :
  rd_in C U (fun _ => True) m -> rd_in C U (fun _ => True) (Slurp f m).
Proof.
  intros Hm. unfold Slurp.
  apply (rd_in_bind (fun _ => True)); [exact Hm | intros r _].
  apply (rd_in_bind (fun _ => True)); [apply rd_in_slurpRemainder | intros _ _].
  apply rd_in_ret. exact I.
Qed.

(** [setRR] leaves in the channel tokens of the channel, and the token of
    its error is one that it received, or the zero token. *)
Lemma rd_in_setRR (E : Env) (h : RR_Header) (o f : string) :
  rd_in C U (fun _ => True) (setRR E h o f).
Proof.
  unfold setRR.
  repeat match goal with
         | |- rd_in _ _ _ (if ?b then _ else _) => destruct b
         end;
    try apply rd_in_Slurp;
    try (apply rd_in_fail; exact U_zero);
    cbv beta delta [setA setAAAA setNS setMX setCNAME setSOA setSSHFP
                    setDNSKEY setRRSIG setNSEC setNSEC3 setDS setTXT];
    repeat rd_in_step.
Qed.

End ReadersIn.

(** *** The errors are located *)

Lemma zlexer_located (E : Env) (input : string) :
  Forall located (zlexer E input).
Proof.
  unfold zlexer, zlexer_trace.
  destruct (zlexer_loop_places E input zl0 1 1 1) as [H1 H2];
    [lia | lia | discriminate | ].
  apply lines_from_lower in H1. rewrite Forall_forall in *.
  intros t Ht. split; auto.
Qed.

Lemma located_or_no_token_zero : located lex0 \/ no_token lex0.
Proof. right. split; reflexivity. Qed.

Section Located.

Variable E : Env.
Variable sub : string -> string -> list Token.
Variables (f : string) (include : Z).

Hypothesis sub_located : forall r1 f1, Forall located_item (sub r1 f1).

Lemma parseZone_turn_located st h defttl origin l c :
  located l -> Forall located c ->
  match parseZone_turn E sub f include st h defttl origin l c with
  | PGo _ _ _ _ c' out => Forall located c' /\ Forall located_item out
  | PReturn out => Forall located_item out
  end.
Proof.
  intros Hl Hc.
  assert (Herr : forall msg, Forall located_item [Token_Error f msg l]).
  { intros. constructor; [exact Hl | constructor]. }
  unfold parseZone_turn.
  destruct (nonempty (err l)); [apply Herr | ].
  destruct st;
    match goal with
    | |- context [setRR] =>
        destruct (setRR E h origin f c) as [[r | e] c1] eqn:Hs
    | _ =>
        try (destruct (negb (tokval_beq _ _)); [apply Herr | ]);
        try (destruct (value l); try apply Herr);
        try (destruct (negb (snd _)); [apply Herr | ]);
        try (destruct (stringToTtl l f) as [e | ttl] eqn:Hs;
             [ unfold stringToTtl in Hs; destruct (Atoi (token l));
               inversion Hs; apply Herr | ]);
        try (destruct (Str_class E _); [ | apply Herr]);
        try (destruct (Open E _); [ | apply Herr];
             destruct (7 <? include + 1); [apply Herr | ]);
        try solve [split; [exact Hc | constructor]];
        try solve [split; [exact Hc | apply sub_located]]
    end.
  - destruct (rd_in_setRR located (fun t => located t \/ no_token t)
                (fun t Ht => or_introl Ht) located_or_no_token_zero
                E h origin f _ _ _ Hc Hs) as (Hc1 & _ & _).
    split; [exact Hc1 | constructor; [exact I | constructor]].
  - destruct (rd_in_setRR located (fun t => located t \/ no_token t)
                (fun t Ht => or_introl Ht) located_or_no_token_zero
                E h origin f _ _ _ Hc Hs) as (_ & He & _).
    specialize (He e eq_refl).
    constructor; [ | constructor]. unfold located_item. simpl.
    destruct (negb (nonempty (token (pe_lex e)))
              && tokval_beq (value (pe_lex e)) _EOF) eqn:Hsub;
      [exact Hl | ].
    destruct He as [He | [Ht Hv]]; [exact He | ].
    rewrite Ht, Hv in Hsub. discriminate.
Qed.

Lemma parseZone_loop_located fuel : forall st h defttl origin c,
  Forall located c ->
  Forall located_item
    (parseZone_loop E sub f include fuel st h defttl origin c).
Proof.
  induction fuel as [| fuel IH]; intros st h defttl origin c Hc; simpl;
    [constructor | ].
  destruct c as [| l c]; [constructor | ].
  inversion Hc as [| l' c0 Hl Hc0]; subst.
  pose proof (parseZone_turn_located st h defttl origin l c Hl Hc0) as Hturn.
  destruct (parseZone_turn E sub f include st h defttl origin l c)
    as [st' h' defttl' origin' c' out | out]; [ | exact Hturn].
  destruct Hturn as (Hc' & Hout).
  apply Forall_app. split; [exact Hout | apply IH; exact Hc'].
Qed.

End Located.

Lemma parseZone_located E depth : forall r f include,
  Forall located_item (parseZone E depth r f include).
Proof.
  induction depth as [| depth IH]; intros r f include;
    rewrite parseZone_unfold; apply parseZone_loop_located;
    auto using zlexer_located.
Qed.

(** X18. Every error of the stream is located: the token that a
    [ParseError] carries has a line and a column that count from 1, in
    the file at hand or in an included one, also when a reader ran out of
    tokens or met a type that it does not read. *)
Theorem ParseZone_errors_located (E : Env) (r file : string) :
  Forall located_item (ParseZone E r file).
Proof. apply parseZone_located. Qed.

(** A record that is cut short: the reader runs out of tokens, and the
    error is placed at the blank that follows the RR type. *)
Example ParseZone_cut_short :
  forall ip dt fs,
  ParseZone (std_env ip dt fs) "a. MX 10 " EmptyString
  = [Token_Error EmptyString "bad MX Mx" (mkLex " " EmptyString _BLANK 1 6)].
Proof. intros. vm_compute. reflexivity. Qed.

(** *** Without $INCLUDE *)

Lemma lacks_app (x : ascii) (a b : string) :
  lacks x (a ++ b) = lacks x a && lacks x b.
Proof.
  induction a as [| c a IH]; simpl; [reflexivity | ].
  rewrite IH, andb_assoc. reflexivity.
Qed.

Lemma directive_lacks (s : string) :
  lacks "$" s = true -> directive s <> _DIRINCLUDE.
Proof.
  intros H. unfold directive.
  destruct (String.eqb_spec s "$TTL"); [discriminate | ].
  destruct (String.eqb_spec s "$ORIGIN"); [discriminate | ].
  destruct (String.eqb_spec s "$INCLUDE") as [-> | _]; discriminate.
Qed.

(** In one turn on a character that is not a dollar, the lexer sends no
    directive $INCLUDE, if it holds none. *)
Lemma zlexer_turn_not_include (E : Env) (s : zl) (x : ascii) :
  Ascii.eqb x "$" = false ->
  lacks "$" (zl_str s) = true -> not_include (zl_l s) ->
  match zlexer_turn E s x with
  | Go s2 out =>
      Forall not_include out /\
      lacks "$" (zl_str s2) = true /\ not_include (zl_l s2)
  | Halt out => Forall not_include out
  end.
Proof.
  destruct s as [l str quote escape space commt rrtype owner brace].
  unfold zlexer_turn, send, add, dq, set_l, set_str, set_quote,
    set_escape, set_space, set_commt, set_rrtype, set_owner, set_brace,
    not_include.
  cbn. intros Hx Hstr Hl.
  pose proof (directive_lacks str Hstr) as Hdir.
  repeat match goal with
         | |- match ?t with Go _ _ => _ | Halt _ => _ end =>
             let u := head_test t in destruct u eqn:?; cbn
         end;
  repeat match goal with
         | |- _ /\ _ => split
         | |- Forall _ (_ :: _) => constructor
         | |- Forall _ [] => constructor
         | |- context [if ?b then _ else _] => destruct b eqn:?
         end;
  cbn; rewrite ?lacks_app; cbn; rewrite ?Hstr, ?Hx;
  try assumption; try reflexivity; try discriminate.
Qed.

Lemma at_pos_not_include (s : zl) (ln col : Z) :
  zl_str (at_pos s ln col) = zl_str s /\
  (not_include (zl_l s) -> not_include (zl_l (at_pos s ln col))).
Proof. destruct s; split; auto. Qed.

Lemma zlexer_loop_not_include (E : Env) (input : string) : forall s ln col,
  lacks "$" input = true ->
  lacks "$" (zl_str s) = true -> not_include (zl_l s) ->
  Forall not_include (map snd (zlexer_loop E s ln col input)).
Proof.
  induction input as [| x rest IH]; intros s ln col Hin Hstr Hl.
  - simpl. destruct (0 <? len (zl_str s)); constructor; [ | constructor].
    unfold not_include. simpl. discriminate.
  - apply lacks_cons in Hin. destruct Hin as [Hx Hrest].
    destruct (at_pos_not_include s ln col) as [Hs Hp].
    assert (Hturn := zlexer_turn_not_include E (at_pos s ln col) x Hx).
    rewrite Hs in Hturn. specialize (Hturn Hstr (Hp Hl)).
    cbn [zlexer_loop].
    destruct (Ascii.eqb x "010");
      (destruct (zlexer_turn E (at_pos s ln col) x) as [s2 out | out];
       [ destruct Hturn as (Hout & Hstr2 & Hl2);
         rewrite map_app, map_snd_tag; apply Forall_app; split;
         [exact Hout | apply IH; assumption]
       | rewrite map_snd_tag; exact Hturn ]).
Qed.

Lemma zlexer_loop_without_files (E : Env) (input : string) :
  forall s ln col,
  zlexer_loop (without_files E) s ln col input = zlexer_loop E s ln col input.
Proof.
  induction input as [| x rest IH]; intros s ln col; [reflexivity | ].
  cbn [zlexer_loop].
  change (zlexer_turn (without_files E) (at_pos s ln col) x)
    with (zlexer_turn E (at_pos s ln col) x).
  destruct (Ascii.eqb x "010");
    (destruct (zlexer_turn E (at_pos s ln col) x); [rewrite IH | ]; reflexivity).
Qed.

(** The lexer looks at the tables only. *)
Lemma zlexer_without_files (E : Env) (input : string) :
  zlexer (without_files E) input = zlexer E input.
Proof.
  unfold zlexer, zlexer_trace. rewrite zlexer_loop_without_files. reflexivity.
Qed.

Lemma setRR_without_files (E : Env) (h : RR_Header) (o f : string)
    (c : list lex) :
  setRR (without_files E) h o f c = setRR E h o f c.
Proof. reflexivity. Qed.

Lemma not_include_zero : not_include lex0.
Proof. unfold not_include. simpl. discriminate. Qed.

(** Outside of a directive $INCLUDE, a turn of the parser does without
    the file system and without the nested parse. *)
Lemma parseZone_turn_without_files E sub sub' f include
    st h defttl origin l c :
  including st = false -> not_include l -> Forall not_include c ->
  parseZone_turn (without_files E) sub' f include st h defttl origin l c
  = parseZone_turn E sub f include st h defttl origin l c /\
  match parseZone_turn E sub f include st h defttl origin l c with
  | PGo st' _ _ _ c' _ => including st' = false /\ Forall not_include c'
  | PReturn _ => True
  end.
Proof.
  intros Hst Hl Hc. split.
  - unfold parseZone_turn. rewrite setRR_without_files.
    destruct st; try reflexivity; discriminate.
  - unfold parseZone_turn.
    destruct (nonempty (err l)); [exact I | ].
    destruct st; try discriminate;
      match goal with
      | |- context [setRR] =>
          destruct (setRR E h origin f c) as [[r | e] c1] eqn:Hs; [ | exact I];
          split; [reflexivity | ];
          apply (rd_in_setRR not_include not_include (fun t Ht => Ht)
                   not_include_zero E h origin f _ _ _ Hc Hs)
      | _ =>
          try (destruct (negb (tokval_beq _ _)); [exact I | ]);
          try (destruct (value l) eqn:Hv; try exact I);
          try (destruct (negb (snd _)); [exact I | ]);
          try (destruct (stringToTtl l f); [exact I | ]);
          try (destruct (Str_class E _); [ | exact I]);
          try solve [split; [reflexivity | exact Hc]];
          try (exfalso; apply Hl; exact Hv)
      end.
Qed.

Lemma parseZone_loop_without_files E sub sub' f include fuel :
  forall st h defttl origin c,
  including st = false -> Forall not_include c ->
  parseZone_loop (without_files E) sub' f include fuel st h defttl origin c
  = parseZone_loop E sub f include fuel st h defttl origin c.
Proof.
  induction fuel as [| fuel IH]; intros st h defttl origin c Hst Hc;
    [reflexivity | ].
  destruct c as [| l c]; [reflexivity | ].
  inversion Hc as [| l' c0 Hl Hc0]; subst. cbn [parseZone_loop].
  destruct (parseZone_turn_without_files E sub sub' f include
              st h defttl origin l c Hst Hl Hc0) as [Heq Hnext].
  rewrite Heq.
  destruct (parseZone_turn E sub f include st h defttl origin l c)
    as [st' h' defttl' origin' c' out | out]; [ | reflexivity].
  destruct Hnext as [Hst' Hc']. rewrite (IH _ _ _ _ _ Hst' Hc'). reflexivity.
Qed.

(** X19. An input without a dollar sign holds no directive $INCLUDE: its
    stream does not depend on the file system, it holds at most one
    error, and nothing after the error. *)
Theorem ParseZone_without_include (E : Env) (r file : string) :
  lacks "$" r = true ->
  ParseZone E r file = ParseZone (without_files E) r file /\
  error_is_last (ParseZone E r file) = true /\
  (count_errors (ParseZone E r file) <= 1)%nat.
Proof.
  intros Hr.
  assert (Heq : ParseZone E r file = ParseZone (without_files E) r file).
  { unfold ParseZone. rewrite !parseZone_unfold, zlexer_without_files.
    symmetry. apply parseZone_loop_without_files; [reflexivity | ].
    unfold zlexer, zlexer_trace.
    apply zlexer_loop_not_include;
      [exact Hr | reflexivity | apply not_include_zero]. }
  split; [exact Heq | ]. rewrite Heq.
  unfold ParseZone. rewrite parseZone_unfold.
  apply parseZone_loop_errors. reflexivity.
Qed.

Lemma ParseZone_without_include_witness :
  ParseZone (ex_env (one_file "inc" "x")) ("a. NS b." ++ nl ++ "c." ++ nl)
    "zone"
  = ParseZone (without_files (ex_env (one_file "inc" "x")))
      ("a. NS b." ++ nl ++ "c." ++ nl) "zone" /\
  error_is_last
    (ParseZone (ex_env (one_file "inc" "x"))
       ("a. NS b." ++ nl ++ "c." ++ nl) "zone") = true /\
  (count_errors
     (ParseZone (ex_env (one_file "inc" "x"))
        ("a. NS b." ++ nl ++ "c." ++ nl) "zone") <= 1)%nat.
Proof.
  apply (ParseZone_without_include (ex_env (one_file "inc" "x"))
           ("a. NS b." ++ nl ++ "c." ++ nl) "zone").
  reflexivity.
Defined.

(** ** The helpers on messages *)

(** X20. What the tests say after the helpers that set a message up, for
    every message and every codes: a notify tests as a notify and an
    update as an update; [SetQuestion] leaves the response bit, so that
    the message tests as a question only if the bit was clear; [SetAxfr]
    and [SetIxfr] leave the opcode, so that the message tests as a
    transfer request only if the opcode was that of a query. *)
Theorem Set_then_Is (K : MsgCodes) (m : Msg) (z : string) (t serial id : Z) :
  IsNotify K (SetNotify K m z id) = true /\
  IsUpdate K (SetUpdate K m z id) = true /\
  IsQuestion (SetQuestion m z t id) = negb (Response (Msg_Hdr m)) /\
  IsAxfr K (SetAxfr K m z id) = (Opcode (Msg_Hdr m) =? OpcodeQuery K) /\
  IsIxfr K (SetIxfr K m z serial id) = (Opcode (Msg_Hdr m) =? OpcodeQuery K).
Proof.
  unfold IsNotify, IsUpdate, IsQuestion, IsAxfr, IsIxfr,
    SetNotify, SetUpdate, SetQuestion, SetAxfr, SetIxfr. simpl.
  rewrite !Z.eqb_refl, !andb_true_r.
  repeat split.
Qed.

Lemma put_same (st : store) (p : nat) (m : Msg) : put st p m p = m.
Proof. unfold put. rewrite Nat.eqb_refl. reflexivity. Qed.

Lemma put_other (st : store) (p q : nat) (m : Msg) :
  q <> p -> put st p m q = st q.
Proof.
  intros H. unfold put. apply Nat.eqb_neq in H. rewrite H. reflexivity.
Qed.

(** What the assignments leave of a message of the store. *)
Lemma set_Hdr_other (st : store) (p q : nat) (f : MsgHdr -> MsgHdr) :
  q <> p -> set_Hdr st p f q = st q.
Proof. intros H. unfold set_Hdr. apply put_other. exact H. Qed.

Lemma set_Question_other (st : store) (p q : nat) (qs : list Question) :
  q <> p -> set_Question st p qs q = st q.
Proof. intros H. unfold set_Question. apply put_other. exact H. Qed.

Lemma Msg_Hdr_set_Hdr (st : store) (p : nat) (f : MsgHdr -> MsgHdr) :
  Msg_Hdr (set_Hdr st p f p) = f (Msg_Hdr (st p)).
Proof. unfold set_Hdr. rewrite put_same. reflexivity. Qed.

Lemma Msg_Question_set_Hdr (st : store) (p q : nat) (f : MsgHdr -> MsgHdr) :
  Msg_Question (set_Hdr st p f q) = Msg_Question (st q).
Proof.
  unfold set_Hdr, put. destruct (Nat.eqb_spec q p) as [-> | _]; reflexivity.
Qed.

Lemma Msg_Hdr_set_Question (st : store) (p q : nat) (qs : list Question) :
  Msg_Hdr (set_Question st p qs q) = Msg_Hdr (st q).
Proof.
  unfold set_Question, put.
  destruct (Nat.eqb_spec q p) as [-> | _]; reflexivity.
Qed.

Lemma Msg_Question_set_Question (st : store) (p : nat)
    (qs : list Question) :
  Msg_Question (set_Question st p qs p) = qs.
Proof. unfold set_Question. rewrite put_same. reflexivity. Qed.

(** The assignments of [SetReply] and [SetRcode], but for the last one;
    then what these two return. *)
Lemma SetReply_unfold (K : MsgCodes) (st : store) (d r : nat) :
  exists st1,
    SetReply K st (Some d) (Some r)
    = match Msg_Question (st1 r) with
      | [] => Panics
      | q :: _ => Returns (set_Question st1 d [q])
      end /\
    Msg_Question (st1 d) = [Question0] /\
    Id (Msg_Hdr (st1 d)) = Id (Msg_Hdr (st r)) /\
    Response (Msg_Hdr (st1 d)) = true /\
    Rcode (Msg_Hdr (st1 d)) = RcodeSuccess K /\
    (forall p, p <> d -> st1 p = st p).
Proof.
  eexists. split; [reflexivity | ].
  rewrite Msg_Question_set_Question, Msg_Hdr_set_Question, !Msg_Hdr_set_Hdr.
  repeat split.
  intros p Hp.
  rewrite set_Question_other, !set_Hdr_other by exact Hp. reflexivity.
Qed.

Lemma SetRcode_unfold (K : MsgCodes) (st : store) (d r : nat) (rcode : Z) :
  exists st1,
    SetRcode K st (Some d) (Some r) rcode
    = match Msg_Question (st1 r) with
      | [] => Panics
      | q :: _ => Returns (set_Question st1 d [q])
      end /\
    Msg_Question (st1 d) = [Question0] /\
    Id (Msg_Hdr (st1 d)) = Id (Msg_Hdr (st r)) /\
    Response (Msg_Hdr (st1 d)) = true /\
    Rcode (Msg_Hdr (st1 d)) = rcode /\
    (forall p, p <> d -> st1 p = st p).
Proof.
  eexists. split; [reflexivity | ].
  rewrite Msg_Question_set_Question, Msg_Hdr_set_Question, !Msg_Hdr_set_Hdr.
  repeat split.
  - cbn [hdr_Id Id]. destruct (Nat.eq_dec r d) as [-> | Hrd].
    + rewrite !Msg_Hdr_set_Hdr. reflexivity.
    + rewrite !set_Hdr_other by exact Hrd. reflexivity.
  - intros p Hp.
    rewrite set_Question_other, !set_Hdr_other by exact Hp. reflexivity.
Qed.

(** The last assignment, [dns.Question[0] = request.Question[0]]. *)
Lemma last_assignment (st st1 : store) (d r : nat) (i w : Z) :
  Msg_Question (st1 d) = [Question0] ->
  Id (Msg_Hdr (st1 d)) = i ->
  Response (Msg_Hdr (st1 d)) = true ->
  Rcode (Msg_Hdr (st1 d)) = w ->
  (forall p, p <> d -> st1 p = st p) ->
  let o := match Msg_Question (st1 r) with
           | [] => Panics
           | q :: _ => Returns (set_Question st1 d [q])
           end in
  (o = Panics <-> d <> r /\ Msg_Question (st r) = []) /\
  (forall st', o = Returns st' ->
     Id (Msg_Hdr (st' d)) = i /\
     Msg_Question (st' d)
     = (if Nat.eqb d r then [Question0]
        else firstn 1 (Msg_Question (st r))) /\
     IsQuestion (st' d) = false /\
     IsRcode (st' d) w = true /\
     (forall p, p <> d -> st' p = st p)).
Proof.
  intros Hq Hi Hr Hw Hother o. subst o.
  assert (Hret : forall q st',
    Returns (set_Question st1 d [q]) = Returns st' ->
    Id (Msg_Hdr (st' d)) = i /\ Msg_Question (st' d) = [q] /\
    IsQuestion (st' d) = false /\ IsRcode (st' d) w = true /\
    (forall p, p <> d -> st' p = st p)).
  { intros q st' H. inversion H; subst st'; clear H.
    unfold IsQuestion, IsRcode.
    rewrite Msg_Question_set_Question, Msg_Hdr_set_Question, Hr.
    cbn. rewrite Hw, Z.eqb_refl. repeat split; try assumption.
    intros p Hp. rewrite set_Question_other by exact Hp. auto. }
  destruct (Nat.eqb_spec d r) as [<- | Hdr].
  - rewrite Hq. split.
    + split; [discriminate | intros [H _]; congruence].
    + intros st' H. exact (Hret _ _ H).
  - rewrite (Hother r) by congruence.
    destruct (Msg_Question (st r)) as [| q qs].
    + split; [split; [auto | reflexivity] | discriminate].
    + split; [split; [discriminate | intros [_ H]; discriminate] | ].
      intros st' H. exact (Hret _ _ H).
Qed.

(** X21. [SetReply] and [SetRcode], on a receiver [dns] and a request
    that are not [nil], panic exactly when the request is another message
    than [dns] and has no question; they panic when one of the two is
    [nil].  When they return, [dns] has the id of the request, is no
    question, and has the rcode that was asked for ([RcodeSuccess] for a
    reply); its question section is the first question of the request
    when the request is another message, and one zero [Question] when the
    request is [dns] itself (the section is replaced before the request
    is read); no other message of the store is changed. *)
Theorem SetReply_SetRcode (K : MsgCodes) (st : store) (d r : nat)
    (rcode : Z) :
  (SetReply K st (Some d) (Some r) = Panics <->
   d <> r /\ Msg_Question (st r) = []) /\
  (SetRcode K st (Some d) (Some r) rcode = Panics <->
   d <> r /\ Msg_Question (st r) = []) /\
  (forall p,
     SetReply K st None p = Panics /\ SetReply K st p None = Panics /\
     SetRcode K st None p rcode = Panics /\
     SetRcode K st p None rcode = Panics) /\
  (forall st', SetReply K st (Some d) (Some r) = Returns st' ->
     Id (Msg_Hdr (st' d)) = Id (Msg_Hdr (st r)) /\
     Msg_Question (st' d)
     = (if Nat.eqb d r then [Question0]
        else firstn 1 (Msg_Question (st r))) /\
     IsQuestion (st' d) = false /\
     IsRcode (st' d) (RcodeSuccess K) = true /\
     (forall p, p <> d -> st' p = st p)) /\
  (forall st', SetRcode K st (Some d) (Some r) rcode = Returns st' ->
     Id (Msg_Hdr (st' d)) = Id (Msg_Hdr (st r)) /\
     Msg_Question (st' d)
     = (if Nat.eqb d r then [Question0]
        else firstn 1 (Msg_Question (st r))) /\
     IsQuestion (st' d) = false /\
     IsRcode (st' d) rcode = true /\
     (forall p, p <> d -> st' p = st p)).
Proof.
  destruct (SetReply_unfold K st d r) as (s1 & -> & Hq1 & Hi1 & Hr1 & Hw1 & Ho1).
  destruct (SetRcode_unfold K st d r rcode)
    as (s2 & -> & Hq2 & Hi2 & Hr2 & Hw2 & Ho2).
  destruct (last_assignment st s1 d r _ _ Hq1 Hi1 Hr1 Hw1 Ho1) as [Hp1 Hret1].
  destruct (last_assignment st s2 d r _ _ Hq2 Hi2 Hr2 Hw2 Ho2) as [Hp2 Hret2].
  split; [exact Hp1 | ]. split; [exact Hp2 | ].
  split; [intros [p | ]; repeat split | ].
  split; assumption.
Qed.

(** A reply to the question at address 1, made at address 0: another
    message, whose question is copied. *)
Lemma SetReply_SetRcode_witness :
  exists st',
    SetReply rfc_codes question_at_1 (Some 0%nat) (Some 1%nat) = Returns st' /\
    (Id (Msg_Hdr (st' 0%nat)) = Id (Msg_Hdr (question_at_1 1%nat)) /\
     Msg_Question (st' 0%nat)
     = (if Nat.eqb 0 1 then [Question0]
        else firstn 1 (Msg_Question (question_at_1 1%nat))) /\
     IsQuestion (st' 0%nat) = false /\
     IsRcode (st' 0%nat) (RcodeSuccess rfc_codes) = true /\
     (forall p, p <> 0%nat -> st' p = question_at_1 p)).
Proof.
  eexists. split; [reflexivity | ].
  apply (proj1 (proj2 (proj2 (proj2
           (SetReply_SetRcode rfc_codes question_at_1 0 1 0))))).
  reflexivity.
Defined.

(** The same at address 1 itself: no panic, and the question is lost. *)
Example SetReply_in_place :
  match SetReply rfc_codes question_at_1 (Some 1%nat) (Some 1%nat) with
  | Returns st' => Msg_Question (st' 1%nat) = [Question0]
  | Panics => False
  end.
Proof. reflexivity. Qed.

(** A reply to a message without question: a panic, unless the message is
    the receiver. *)
Example SetReply_no_question :
  SetReply rfc_codes question_at_1 (Some 1%nat) (Some 0%nat) = Panics /\
  match SetReply rfc_codes question_at_1 (Some 0%nat) (Some 0%nat) with
  | Returns st' => Msg_Question (st' 0%nat) = [Question0]
  | Panics => False
  end.
Proof. split; reflexivity. Qed.

(** X22. [SetRcodeFormatError] leaves the question section as it is, so
    that the message it makes tests as a format error exactly when the
    message had a question before: on a new message the test fails. *)
Theorem SetRcodeFormatError_question (K : MsgCodes) (dns request : Msg) :
  Msg_Question (SetRcodeFormatError K dns request) = Msg_Question dns /\
  IsRcodeFormatError K (SetRcodeFormatError K dns request)
  = negb (Z.of_nat (List.length (Msg_Question dns)) =? 0) /\
  IsRcodeFormatError K (SetRcodeFormatError K Msg0 request) = false.
Proof.
  unfold IsRcodeFormatError, SetRcodeFormatError. simpl.
  rewrite Z.eqb_refl. repeat split.
Qed.

Lemma IsEdns0_loop_app (K : MsgCodes) (a b : list RR) :
  IsEdns0_loop K (a ++ b) = IsEdns0_loop K a || IsEdns0_loop K b.
Proof.
  induction a as [| r a IH]; simpl; [reflexivity | ].
  destruct (Rrtype (Header r) =? TypeOPT K); [reflexivity | exact IH].
Qed.

(** X23. [IsTsig] looks at the last record of the additional section
    only, and [IsEdns0] at all of them: with a record appended, [IsTsig]
    tells whether that record is a TSIG, whatever came before, and
    [IsEdns0] holds if it held before or the record is an OPT. *)
Theorem IsTsig_IsEdns0_appended (K : MsgCodes) (m : Msg) (r : RR) :
  let m' := mkMsg (Msg_Hdr m) (Msg_Question m) (Msg_Answer m) (Msg_Ns m)
              (Msg_Extra m ++ [r]) in
  IsTsig K m' = (Rrtype (Header r) =? TypeTSIG K) /\
  IsEdns0 K m' = IsEdns0 K m || (Rrtype (Header r) =? TypeOPT K).
Proof.
  intros m'. unfold IsTsig, IsEdns0, m'. simpl. split.
  - rewrite length_app. simpl. rewrite Nat.add_1_r.
    rewrite nth_error_app2 by lia. rewrite Nat.sub_diag. reflexivity.
  - rewrite IsEdns0_loop_app. simpl.
    destruct (Rrtype (Header r) =? TypeOPT K); reflexivity.
Qed.

(** ** The helpers of the example program *)

Lemma getRRset_loop_filter (l : list RR) (name : string) (t : Z) :
  forall l1,
  getRRset_loop l1 l name t
  = (l1 ++ filter (fun rr => String.eqb (Name (Header rr)) name
                             && (Rrtype (Header rr) =? t)) l)%list.
Proof.
  induction l as [| rr l IH]; intros l1; simpl; [rewrite app_nil_r; reflexivity | ].
  rewrite IH.
  destruct (String.eqb (Name (Header rr)) name && (Rrtype (Header rr) =? t));
    [rewrite <- app_assoc | ]; reflexivity.
Qed.

(** X24. [getRRset] returns the records of the list that have the name
    and the type asked for, all of them and no other, in the order of the
    list; asking again in the result changes nothing. *)
Theorem getRRset_spec (l : list RR) (name : string) (t : Z) :
  getRRset l name t
  = filter (fun rr => String.eqb (Name (Header rr)) name
                      && (Rrtype (Header rr) =? t)) l /\
  (forall rr, In rr (getRRset l name t) <->
     In rr l /\ Name (Header rr) = name /\ Rrtype (Header rr) = t) /\
  getRRset (getRRset l name t) name t = getRRset l name t.
Proof.
  assert (H : forall l', getRRset l' name t
              = filter (fun rr => String.eqb (Name (Header rr)) name
                                  && (Rrtype (Header rr) =? t)) l').
  { intros l'. unfold getRRset. rewrite getRRset_loop_filter. reflexivity. }
  split; [apply H | split].
  - intros rr. rewrite H, filter_In, andb_true_iff, String.eqb_eq, Z.eqb_eq.
    reflexivity.
  - rewrite !H.
    induction l as [| rr l IH]; simpl; [reflexivity | ].
    destruct (String.eqb (Name (Header rr)) name && (Rrtype (Header rr) =? t))
      eqn:Hc; simpl; [rewrite Hc, IH; reflexivity | exact IH].
Qed.

Lemma slice_1_5_length {A} (bm : list A) :
  (5 < List.length bm)%nat -> List.length (slice bm 1 5) = 4%nat.
Proof.
  intros H. unfold slice. rewrite length_firstn, length_skipn. lia.
Qed.

Lemma shortRR_header (r : RR) : Header (shortRR r) = Header r.
Proof. destruct r; reflexivity. Qed.

Lemma shortRR_idem (r : RR) : shortRR (shortRR r) = shortRR r.
Proof.
  destruct r; simpl; auto.
  destruct (5 <? Z.of_nat (List.length TypeBitMap)) eqn:H;
    [ | rewrite H; reflexivity].
  apply Z.ltb_lt in H. rewrite slice_1_5_length by lia. reflexivity.
Qed.

(** X25. [shortRR] keeps the header and the variant of a record, cuts the
    type bitmap of an NSEC3 record down to 5 entries at most, and does
    nothing more when it is applied again. *)
Theorem shortRR_spec (r : RR) :
  Header (shortRR r) = Header r /\
  type_code (shortRR r) = type_code r /\
  match shortRR r with
  | RR_NSEC3 _ _ _ _ _ salt _ _ bm =>
      salt = "-" /\ (List.length bm <= 5)%nat
  | _ => True
  end /\
  shortRR (shortRR r) = shortRR r.
Proof.
  destruct r; simpl; repeat split; auto.
  - destruct (5 <? Z.of_nat (List.length TypeBitMap)) eqn:H.
    + apply Z.ltb_lt in H. rewrite slice_1_5_length; lia.
    + apply Z.ltb_ge in H. lia.
  - destruct (5 <? Z.of_nat (List.length TypeBitMap)) eqn:H; [ | rewrite H; reflexivity].
    apply Z.ltb_lt in H. rewrite slice_1_5_length by lia. reflexivity.
Qed.

Lemma short_at_middle (pre : list RR) (r : RR) (l : list RR) :
  short_at (List.length pre) (pre ++ r :: l) = (pre ++ shortRR r :: l)%list.
Proof. induction pre as [| x pre IH]; simpl; [ | rewrite IH]; reflexivity. Qed.

Lemma short_from_map (n : nat) : forall pre l,
  (n <= List.length l)%nat ->
  short_from n (List.length pre) (pre ++ l)
  = (pre ++ map shortRR (firstn n l) ++ skipn n l)%list.
Proof.
  induction n as [| n IH]; intros pre l Hn; [reflexivity | ].
  cbn [short_from]. destruct l as [| r l]; [simpl in Hn; lia | ].
  rewrite short_at_middle.
  replace (pre ++ shortRR r :: l)%list with ((pre ++ [shortRR r]) ++ l)%list
    by (rewrite <- app_assoc; reflexivity).
  replace (S (List.length pre)) with (List.length (pre ++ [shortRR r]))
    by (rewrite length_app; simpl; lia).
  rewrite IH by (simpl in Hn; lia). simpl. rewrite <- app_assoc. reflexivity.
Qed.

(** The loop over a section applies [shortRR] to each record. *)
Lemma short_section_map (l : list RR) : short_section l = map shortRR l.
Proof.
  unfold short_section.
  change (short_from (List.length l) 0 l)
    with (short_from (List.length l) (List.length (@nil RR)) ([] ++ l)).
  rewrite short_from_map by lia. simpl.
  rewrite firstn_all, skipn_all, app_nil_r. reflexivity.
Qed.

(** X26. [shortMsg] shortens every record of the three sections, in place
    and in order: each section is the old one with [shortRR] applied to
    each record, so that the sections keep their lengths and the records
    their headers; the header and the questions of the message are left,
    and shortening again changes nothing. *)
Theorem shortMsg_spec (m : Msg) :
  shortMsg m
  = mkMsg (Msg_Hdr m) (Msg_Question m) (map shortRR (Msg_Answer m))
      (map shortRR (Msg_Ns m)) (map shortRR (Msg_Extra m)) /\
  map Header (Msg_Answer (shortMsg m)) = map Header (Msg_Answer m) /\
  shortMsg (shortMsg m) = shortMsg m.
Proof.
  assert (Hidem : forall l, map shortRR (map shortRR l) = map shortRR l).
  { intros l. rewrite map_map. apply map_ext. intros r. apply shortRR_idem. }
  unfold shortMsg. simpl. rewrite !short_section_map. simpl.
  rewrite !Hidem. repeat split.
  rewrite map_map. apply map_ext. intros r. apply shortRR_header.
Qed.

(** ** Comments *)

(** A turn of the lexer does not look at the place: at another place it
    gives the same, at that place. *)
Lemma zlexer_turn_at (E : Env) (s : zl) (x : ascii) (a b : Z) :
  zlexer_turn E (at_pos s a b) x = zturn_at a b (zlexer_turn E s x).
Proof.
  destruct s as [l str quote escape space commt rrtype owner brace].
  unfold zlexer_turn, send, add, dq, set_l, set_str, set_quote,
    set_escape, set_space, set_commt, set_rrtype, set_owner, set_brace,
    zturn_at.
  cbn.
  repeat match goal with
         | |- match ?t with _ => _ end = _ =>
             let u := head_test t in destruct u eqn:?; cbn
         end;
  repeat match goal with
         | |- context [if ?c then _ else _] => destruct c; cbn
         end;
  reflexivity.
Qed.

Lemma at_pos_at_pos (s : zl) (a b c d : Z) :
  at_pos (at_pos s a b) c d = at_pos s c d.
Proof. destruct s; reflexivity. Qed.

Lemma placeless_set_pos (out : list lex) (a b : Z) :
  map placeless (map (fun l => set_pos l a b) out) = map placeless out.
Proof. rewrite map_map. apply map_ext. intros l. reflexivity. Qed.

Lemma at_pos_str (s s' : zl) :
  at_pos s 0 0 = at_pos s' 0 0 ->
  zl_str s = zl_str s' /\
  forall v t, placeless (set_tok (zl_l s) v t)
              = placeless (set_tok (zl_l s') v t).
Proof.
  destruct s as [l ? ? ? ? ? ? ? ?], s' as [l' ? ? ? ? ? ? ? ?]. simpl.
  intros H. inversion H. split; [reflexivity | ].
  intros v t. unfold placeless. simpl. congruence.
Qed.

(** The texts of the tokens of a run depend neither on the place where
    the run is, nor on the place of the token that the state holds. *)
Lemma zlexer_loop_placeless (E : Env) (input : string) :
  forall s s' ln col ln' col',
  at_pos s 0 0 = at_pos s' 0 0 ->
  map placeless (map snd (zlexer_loop E s ln col input))
  = map placeless (map snd (zlexer_loop E s' ln' col' input)).
Proof.
  induction input as [| x rest IH]; intros s s' ln col ln' col' Hs.
  - simpl. destruct (at_pos_str s s' Hs) as [Hstr Htok]. rewrite Hstr.
    destruct (0 <? len (zl_str s')); simpl; [rewrite Htok | ]; reflexivity.
  - cbn [zlexer_loop].
    assert (H1 : zlexer_turn E (at_pos s ln col) x
                 = zturn_at ln col (zlexer_turn E (at_pos s 0 0) x))
      by (rewrite <- zlexer_turn_at, at_pos_at_pos; reflexivity).
    assert (H2 : zlexer_turn E (at_pos s' ln' col') x
                 = zturn_at ln' col' (zlexer_turn E (at_pos s 0 0) x))
      by (rewrite Hs, <- zlexer_turn_at, at_pos_at_pos; reflexivity).
    rewrite H1, H2.
    destruct (Ascii.eqb x "010");
      destruct (zlexer_turn E (at_pos s 0 0) x) as [s2 out | out];
      cbn [zturn_at];
      rewrite ?map_app, !map_snd_tag, ?map_app, !placeless_set_pos;
      try reflexivity;
      f_equal; apply IH; rewrite !at_pos_at_pos; reflexivity.
Qed.

(** Inside a comment a character that is not a newline changes nothing. *)
Lemma zlexer_turn_comment (E : Env) (s : zl) (x : ascii) :
  zl_commt s = true -> zl_escape s = false -> zl_quote s = false ->
  Ascii.eqb x "010" = false ->
  zlexer_turn E s x = Go s [].
Proof.
  destruct s as [l str quote escape space commt rrtype owner brace].
  unfold zlexer_turn, send, add, dq, set_l, set_str, set_quote,
    set_escape, set_space, set_commt, set_rrtype, set_owner, set_brace.
  cbn. intros -> -> -> ->.
  repeat match goal with
         | |- context [if ?c then _ else _] => destruct c
         end; reflexivity.
Qed.

Lemma at_pos_flags (s : zl) (a b : Z) :
  zl_commt (at_pos s a b) = zl_commt s /\
  zl_escape (at_pos s a b) = zl_escape s /\
  zl_quote (at_pos s a b) = zl_quote s.
Proof. destruct s; repeat split. Qed.

(** The text of a comment is skipped. *)
Lemma zlexer_loop_comment (E : Env) (w rest : string) : forall s ln col,
  zl_commt s = true -> zl_escape s = false -> zl_quote s = false ->
  lacks "010" w = true ->
  map placeless (map snd (zlexer_loop E s ln col (w ++ rest)))
  = map placeless (map snd (zlexer_loop E s ln col rest)).
Proof.
  induction w as [| x w IH]; intros s ln col Hc He Hq Hw; [reflexivity | ].
  apply lacks_cons in Hw. destruct Hw as [Hx Hw].
  simpl append. cbn [zlexer_loop].
  destruct (at_pos_flags s ln col) as (Hc' & He' & Hq').
  rewrite zlexer_turn_comment by congruence.
  rewrite Hx. simpl app.
  rewrite IH by congruence.
  apply zlexer_loop_placeless. apply at_pos_at_pos.
Qed.

(** Outside of a backslash and of a double quote, a turn leaves the lexer
    out of an escape and out of a quoted text. *)
Lemma zlexer_turn_plain (E : Env) (s : zl) (x : ascii) :
  zl_escape s = false -> zl_quote s = false ->
  Ascii.eqb x "\" = false -> Ascii.eqb x "034" = false ->
  match zlexer_turn E s x with
  | Go s2 _ => zl_escape s2 = false /\ zl_quote s2 = false
  | Halt _ => True
  end.
Proof.
  destruct s as [l str quote escape space commt rrtype owner brace].
  unfold zlexer_turn, send, add, dq, set_l, set_str, set_quote,
    set_escape, set_space, set_commt, set_rrtype, set_owner, set_brace.
  cbn. intros -> -> -> ->.
  repeat match goal with
         | |- match ?t with Go _ _ => _ | Halt _ => _ end =>
             let u := head_test t in destruct u eqn:?; cbn
         end;
  auto.
Qed.

Lemma zlexer_loop_comment_after (E : Env) (a w rest : string) :
  forall s ln col,
  zl_escape s = false -> zl_quote s = false ->
  lacks "\" a = true -> lacks "034" a = true -> lacks "010" w = true ->
  map placeless (map snd (zlexer_loop E s ln col (a ++ ";" ++ w ++ rest)))
  = map placeless (map snd (zlexer_loop E s ln col (a ++ ";" ++ rest))).
Proof.
  induction a as [| x a IH]; intros s ln col He Hq Hb Hd Hw.
  - simpl append. cbn [zlexer_loop].
    destruct (at_pos_flags s ln col) as (_ & He' & Hq').
    assert (Hsemi : zlexer_turn E (at_pos s ln col) ";"
                    = Go (set_commt (at_pos s ln col) true) []).
    { unfold zlexer_turn. simpl. rewrite He', He, Hq', Hq. reflexivity. }
    rewrite Hsemi. simpl.
    apply zlexer_loop_comment; simpl; congruence.
  - apply lacks_cons in Hb. destruct Hb as [Hxb Hb].
    apply lacks_cons in Hd. destruct Hd as [Hxd Hd].
    simpl append. cbn [zlexer_loop].
    destruct (at_pos_flags s ln col) as (_ & He' & Hq').
    assert (Hturn := zlexer_turn_plain E (at_pos s ln col) x).
    rewrite He', Hq' in Hturn. specialize (Hturn He Hq Hxb Hxd).
    destruct (zlexer_turn E (at_pos s ln col) x) as [s2 out | out];
      destruct (Ascii.eqb x "010"); try reflexivity;
      destruct Hturn as [He2 Hq2];
      rewrite !map_app; f_equal; apply IH; assumption.
Qed.

(** X27. The text of a comment does not matter: after a semicolon that
    is neither escaped nor quoted (here: after a text without backslash
    and without double quote), the characters up to the end of the line
    change no token, but for the places of the tokens that follow on the
    line. *)
Theorem zlexer_comment_skipped (E : Env) (a w rest : string) :
  lacks "\" a = true -> lacks "034" a = true -> lacks "010" w = true ->
  zlexer_text E (a ++ ";" ++ w ++ rest) = zlexer_text E (a ++ ";" ++ rest).
Proof.
  intros Hb Hd Hw. unfold zlexer_text, zlexer, zlexer_trace.
  apply zlexer_loop_comment_after; auto.
Qed.

Lemma zlexer_comment_skipped_witness :
  zlexer_text (ex_env no_file)
    ("a. NS b. " ++ ";" ++ " the name server" ++ (nl ++ "c. NS d." ++ nl))
  = zlexer_text (ex_env no_file)
      ("a. NS b. " ++ ";" ++ (nl ++ "c. NS d." ++ nl)).
Proof.
  apply (zlexer_comment_skipped (ex_env no_file) "a. NS b. "
           " the name server" (nl ++ "c. NS d." ++ nl));
    reflexivity.
Defined.
